(** * Financial Insights Dashboard: the filter-and-aggregate pipelines of app.py

    The dashboard script loads one table, filters it with three sidebar
    selections and feeds repeated groupby / sum / sort_values / head pipelines
    to its charts.  This file embeds those pipelines and proves the properties
    of the query engine they implement.

    Conventions of the embedding.
    - A cell that pandas holds as NaN / None is [None]; a present cell is
      [Some v].
    - Numeric cells (Sales, Profit) are exact rationals [Q]: sums and means are
      the exact ones, rounding of float64 is not modelled.  Results are
      compared with [==] (Qeq).
    - The value of a numpy true division is an [npfloat]: a finite number, an
      infinity or NaN, because numpy scalars do not raise on a zero divisor.
    - pandas calls are modelled by what they do with their default arguments,
      as the script calls them: [isin], boolean-mask indexing, [dropna],
      [unique], [groupby(..., as_index=False)[col].sum()] (sort=True,
      dropna=True), [sort_values(by=..., ascending=False)] (default kind) and
      [head]. *)

From Stdlib Require Import String Ascii.
From Stdlib Require Import List ZArith QArith Bool Lia.
From Stdlib Require Import Permutation Sorted Morphisms Setoid.
From Stdlib Require PrimFloat Uint63.
From stdpp Require list.
Import ListNotations.

(** Subsequences are stdpp's [sublist]. *)
Abbreviation sublist := list_relations.list.sublist (only parsing).

Local Open Scope Z_scope.
Local Open Scope Q_scope.
Local Open Scope string_scope.
Local Open Scope list_scope.

(** ** Data model *)

(** One record of the spreadsheet, with the columns the script reads. *)
Record Row : Type := mkRow {
  Year : option Z;
  Country : option string;
  Segment : option string;
  Product : option string;
  Sales : option Q;
  Profit : option Q;
  Discount_Band : option string;
  Month_Name : option string
}.

(** [df]: rows in file order. *)
Definition Table : Type := list Row.

(** The three sidebar selections: [year_filter], [country_filter],
    [segment_filter].  Each is a Python list of option values. *)
Record FilterSpec : Type := mkFilter {
  year_filter : list Z;
  country_filter : list string;
  segment_filter : list string
}.

(** ** Sidebar options: [sorted(df[c].dropna().unique())] *)

Definition dropna {A : Type} (col : list (option A)) : list A :=
  flat_map (fun c => match c with Some v => [v] | None => [] end) col.

(** [Series.unique]: distinct values in order of first appearance. *)
Fixpoint unique {A : Type} (eqb : A -> A -> bool) (l : list A) : list A :=
  match l with
  | [] => []
  | x :: xs => x :: List.filter (fun y => negb (eqb x y)) (unique eqb xs)
  end.

(** Python's [sorted] on distinct values, as a straight insertion sort. *)
Fixpoint insert_sorted {A : Type} (leb : A -> A -> bool) (x : A) (l : list A) : list A :=
  match l with
  | [] => [x]
  | y :: ys => if leb x y then x :: l else y :: insert_sorted leb x ys
  end.

Definition sorted {A : Type} (leb : A -> A -> bool) (l : list A) : list A :=
  fold_right (insert_sorted leb) [] l.

Definition year_options (df : Table) : list Z :=
  sorted Z.leb (unique Z.eqb (dropna (map Year df))).

Definition country_options (df : Table) : list string :=
  sorted String.leb (unique String.eqb (dropna (map Country df))).

Definition segment_options (df : Table) : list string :=
  sorted String.leb (unique String.eqb (dropna (map Segment df))).

(** The multiselect widgets start with [default=options]: every option is
    selected, which is the dashboard's state with no restriction. *)
Definition default_filter (df : Table) : FilterSpec :=
  {| year_filter := year_options df;
     country_filter := country_options df;
     segment_filter := segment_options df |}.

(** The selection with nothing ticked in any widget. *)
Definition empty_selection : FilterSpec :=
  {| year_filter := []; country_filter := []; segment_filter := [] |}.

(** ** Apply filters: [df[m1 & m2 & m3]] *)

(** [Series.isin(values)] for one cell; the values come from a list of
    options, which holds no missing value, so a missing cell matches nothing. *)
Definition isin {A : Type} (eqb : A -> A -> bool) (cell : option A) (values : list A) : bool :=
  match cell with
  | Some v => existsb (eqb v) values
  | None => false
  end.

Definition isin_col {A : Type} (eqb : A -> A -> bool) (col : list (option A)) (values : list A)
  : list bool :=
  map (fun c => isin eqb c values) col.

(** Element-wise [&] of two boolean Series of the same index. *)
Fixpoint mask_and (m1 m2 : list bool) : list bool :=
  match m1, m2 with
  | b1 :: r1, b2 :: r2 => (b1 && b2)%bool :: mask_and r1 r2
  | _, _ => []
  end.

(** [df[mask]]: the rows whose mask entry is True, in order. *)
Fixpoint bool_index {A : Type} (df : list A) (mask : list bool) : list A :=
  match df, mask with
  | r :: rs, b :: bs => if b then r :: bool_index rs bs else bool_index rs bs
  | _, _ => []
  end.

Definition applyFilter (df : Table) (F : FilterSpec) : Table :=
  bool_index df
    (mask_and
       (mask_and (isin_col Z.eqb (map Year df) (year_filter F))
                 (isin_col String.eqb (map Country df) (country_filter F)))
       (isin_col String.eqb (map Segment df) (segment_filter F))).

(** The row-wise reading of the mask. *)
Definition row_passes (F : FilterSpec) (r : Row) : bool :=
  (isin Z.eqb (Year r) (year_filter F)
   && isin String.eqb (Country r) (country_filter F)
   && isin String.eqb (Segment r) (segment_filter F))%bool.

(** A row with all three filtered columns present. *)
Definition complete_row (r : Row) : bool :=
  match Year r, Country r, Segment r with
  | Some _, Some _, Some _ => true
  | _, _, _ => false
  end.

(** ** The filter over any list of constrained columns *)





(** ** Group keys and their order *)

(** A present value of a group-by column: Year is an integer, the other
    group-by columns are strings. *)
Inductive key : Type :=
  | KInt (z : Z)
  | KStr (s : string).

(** Order of two key values.  A column holds one type, so the mixed cases
    never meet within one column; they are ordered to keep the order total. *)
Definition key_compare (a b : key) : comparison :=
  match a, b with
  | KInt x, KInt y => Z.compare x y
  | KStr x, KStr y => String.compare x y
  | KInt _, KStr _ => Lt
  | KStr _, KInt _ => Gt
  end.

(** Tuples of keys (one entry per group-by column) compare lexicographically. *)
Fixpoint keys_compare (a b : list key) : comparison :=
  match a, b with
  | [], [] => Eq
  | [], _ :: _ => Lt
  | _ :: _, [] => Gt
  | x :: a', y :: b' =>
      match key_compare x y with
      | Eq => keys_compare a' b'
      | c => c
      end
  end.

Definition keys_lt (a b : list key) : Prop := keys_compare a b = Lt.

Inductive KeyCol : Type :=
  | cYear | cCountry | cSegment | cProduct | cDiscountBand | cMonthName.

Inductive ValCol : Type :=
  | cSales | cProfit.

Definition key_cell (c : KeyCol) (r : Row) : option key :=
  match c with
  | cYear => option_map KInt (Year r)
  | cCountry => option_map KStr (Country r)
  | cSegment => option_map KStr (Segment r)
  | cProduct => option_map KStr (Product r)
  | cDiscountBand => option_map KStr (Discount_Band r)
  | cMonthName => option_map KStr (Month_Name r)
  end.

Definition val_cell (c : ValCol) (r : Row) : option Q :=
  match c with
  | cSales => Sales r
  | cProfit => Profit r
  end.

(** The group key of a row, or [None] when one of the group-by cells is
    missing: with [dropna=True] such a row belongs to no group. *)
Fixpoint group_key (by_cols : list KeyCol) (r : Row) : option (list key) :=
  match by_cols with
  | [] => Some []
  | c :: cs =>
      match key_cell c r, group_key cs r with
      | Some k, Some ks => Some (k :: ks)
      | _, _ => None
      end
  end.

(** ** groupby(...).sum() *)

(** A frame after [groupby(..., as_index=False)[col].sum()]: one row per
    group, the key columns and the aggregated column. *)
Definition AggRow : Type := (list key * Q)%type.
Definition AggregationResult : Type := list AggRow.

(** [sum] skips missing values: a missing cell adds nothing. *)
Definition skipna (c : option Q) : Q :=
  match c with Some v => v | None => 0 end.

(** Add one value to the running total of its group; the groups are kept in
    ascending key order ([sort=True]). *)
Fixpoint agg_add (k : list key) (v : Q) (acc : AggregationResult) : AggregationResult :=
  match acc with
  | [] => [(k, v)]
  | (k', s) :: rest =>
      match keys_compare k k' with
      | Lt => (k, v) :: acc
      | Eq => (k', s + v) :: rest
      | Gt => (k', s) :: agg_add k v rest
      end
  end.

Definition agg_row (by_cols : list KeyCol) (col : ValCol) (acc : AggregationResult) (r : Row)
  : AggregationResult :=
  match group_key by_cols r with
  | Some k => agg_add k (skipna (val_cell col r)) acc
  | None => acc
  end.

Definition groupby_sum (by_cols : list KeyCol) (col : ValCol) (df : Table) : AggregationResult :=
  fold_left (agg_row by_cols col) df [].

(** [Series.sum()] of a list of present numbers. *)
Definition Qsum (l : list Q) : Q := fold_left Qplus l 0.

(** [df[col].sum()] over a whole table. *)
Definition column_sum (col : ValCol) (df : Table) : Q :=
  Qsum (map (fun r => skipna (val_cell col r)) df).

(** Sum of the aggregated column of a grouped frame. *)
Definition total (res : AggregationResult) : Q := Qsum (map snd res).

(** The row has all its group-by cells. *)
Definition has_key (by_cols : list KeyCol) (r : Row) : bool :=
  match group_key by_cols r with Some _ => true | None => false end.

(** No row of the table lacks a group-by cell. *)
Definition no_null_keys (by_cols : list KeyCol) (df : Table) : bool :=
  forallb (has_key by_cols) df.

(** The aggregated value of the group with key [k], if the frame has it. *)
Fixpoint agg_get (k : list key) (res : AggregationResult) : option Q :=
  match res with
  | [] => None
  | (k', s) :: rest =>
      match keys_compare k k' with
      | Eq => Some s
      | _ => agg_get k rest
      end
  end.

(** The rows of the table whose group key is [k]. *)
Definition in_group (by_cols : list KeyCol) (k : list key) (r : Row) : bool :=
  match group_key by_cols r with
  | Some k' => match keys_compare k' k with Eq => true | _ => false end
  | None => false
  end.

Definition group_rows (by_cols : list KeyCol) (k : list key) (df : Table) : Table :=
  List.filter (in_group by_cols k) df.

(** ** sort_values(by=..., ascending=False) and head *)

Definition descending (l : AggregationResult) : Prop :=
  Sorted (fun a b => snd b <= snd a) l.

(** The script calls [sort_values] without [kind], so pandas' default,
    'quicksort', does the work; pandas documents 'mergesort' and 'stable' as
    the only stable kinds.  What every kind promises is a permutation of the
    rows with the sort column non-increasing; where rows with equal values
    land is left to the kind.  (The aggregated column of a sum holds no
    missing value, so [na_position] plays no part.) *)
Class SortKind : Type := {
  sort_values : AggregationResult -> AggregationResult;
  sort_values_perm : forall l, Permutation (sort_values l) l;
  sort_values_desc : forall l, descending (sort_values l)
}.

(** [DataFrame.head(n)] for a count [n]. *)
Definition head {A : Type} (n : nat) (l : list A) : list A := firstn n l.

Definition sortAndLimit (K : SortKind) (result : AggregationResult) (topN : nat)
  : AggregationResult :=
  head topN (sort_values result).

(** A stable sort ([kind='stable']): each row goes in front of the first row
    that is not larger, so rows of equal value keep their order. *)
Fixpoint insert_desc (x : AggRow) (l : AggregationResult) : AggregationResult :=
  match l with
  | [] => [x]
  | y :: ys => if Qle_bool (snd y) (snd x) then x :: l else y :: insert_desc x ys
  end.

Definition stable_sort_desc (l : AggregationResult) : AggregationResult :=
  fold_right insert_desc [] l.




(** Pairwise different sort values. *)
Fixpoint distinct_values (l : AggregationResult) : bool :=
  match l with
  | [] => true
  | x :: xs => (forallb (fun y => negb (Qeq_bool (snd x) (snd y))) xs && distinct_values xs)%bool
  end.

(** ** Trend metrics of the Sales Performance row *)

(** The value of a numpy float64 expression: a number, an infinity or NaN. *)
Inductive npfloat : Type :=
  | Finite (q : Q)
  | PosInf
  | NegInf
  | NaN.

(** [a / b] on numpy scalars: a zero divisor gives a signed infinity, or NaN
    for 0/0, with a RuntimeWarning and no exception. *)
Definition true_divide (a b : Q) : npfloat :=
  if Qeq_bool b 0 then
    match Qcompare a 0 with
    | Gt => PosInf
    | Lt => NegInf
    | Eq => NaN
    end
  else Finite (a / b).

(** [x * c] for a finite factor [c]. *)
Definition np_mul (x : npfloat) (c : Q) : npfloat :=
  match x with
  | Finite q => Finite (q * c)
  | PosInf => match Qcompare c 0 with Gt => PosInf | Lt => NegInf | Eq => NaN end
  | NegInf => match Qcompare c 0 with Gt => NegInf | Lt => PosInf | Eq => NaN end
  | NaN => NaN
  end.

(** [Series.mean()] of present numbers. *)
Definition mean (l : list Q) : Q := Qsum l / inject_Z (Z.of_nat (length l)).

(** The numbers of the three metric cards: Latest Year, Total Change (the
    change with its percentage) and Average Sales. *)
Record TrendMetrics : Type := mkMetrics {
  latest : Q;
  sales_change : Q;
  pct_change : npfloat;
  average : Q
}.

(** The metrics block of the script, on the yearly series
    [sales_trend_df]: nothing is computed for an empty frame, and all four
    numbers sit under the one test [len(sales_trend_df) > 1]. *)
Definition computeTrendMetrics {P : Type} (sales_trend_df : list (P * Q)) : option TrendMetrics :=
  let sales := map snd sales_trend_df in
  match sales with
  | [] => None
  | first :: _ =>
      if (1 <? length sales)%nat then
        let change := last sales 0 - first in
        Some {| latest := last sales 0;
                sales_change := change;
                pct_change := np_mul (true_divide change first) 100;
                average := mean sales |}
      else None
  end.

(** What a caller reads off the result: each metric, or absent. *)
Definition latest_of (m : option TrendMetrics) : option Q := option_map latest m.
Definition delta_of (m : option TrendMetrics) : option Q := option_map sales_change m.
Definition pctChange_of (m : option TrendMetrics) : option npfloat := option_map pct_change m.
Definition average_of (m : option TrendMetrics) : option Q := option_map average m.

(** ** The rows of the page *)

(** [col == value] for one cell: a missing cell equals nothing. *)
Definition eq_cell {A : Type} (eqb : A -> A -> bool) (cell : option A) (v : A) : bool :=
  match cell with
  | Some x => eqb x v
  | None => false
  end.

(** [sorted(filtered_df["Product"].dropna().unique())] *)
Definition product_options (filtered_df : Table) : list string :=
  sorted String.leb (unique String.eqb (dropna (map Product filtered_df))).

(** [filtered_df[filtered_df["Product"] == product_selected]] *)
Definition rows_of_product (filtered_df : Table) (product_selected : string) : Table :=
  bool_index filtered_df
    (map (fun c => eq_cell String.eqb c product_selected) (map Product filtered_df)).

Definition sales_trend_df (filtered_df : Table) (product_selected : string)
  : AggregationResult :=
  groupby_sum [cYear] cSales (rows_of_product filtered_df product_selected).

(** What the Sales Performance row puts on the page. *)
Inductive SalesPerformance : Type :=
  | NoProducts
  | NoSalesData
  | TrendChart (metrics : option TrendMetrics) (chart : AggregationResult).

(** Row 1 of the page, for the product picked in the selectbox. *)
Definition sales_performance (filtered_df : Table) (product_selected : string)
  : SalesPerformance :=
  match product_options filtered_df with
  | [] => NoProducts
  | _ :: _ =>
      match sales_trend_df filtered_df product_selected with
      | [] => NoSalesData
      | trend => TrendChart (computeTrendMetrics trend) trend
      end
  end.

(** Rows 2 and 3, the rankings: a grouped sum, sorted descending, cut to
    the first [n] rows.  [profit_by_segment_country ... .head(top_n)] and
    [top_products_df] are the two uses. *)
Definition top_groups (K : SortKind) (by_cols : list KeyCol) (col : ValCol)
    (filtered_df : Table) (n : nat) : AggregationResult :=
  head n (sort_values (groupby_sum by_cols col filtered_df)).

Definition top_profit_df (K : SortKind) (filtered_df : Table) (top_n : nat)
  : AggregationResult :=
  top_groups K [cSegment; cCountry] cProfit filtered_df top_n.

Definition top_products_df (K : SortKind) (filtered_df : Table) (top_products_n : nat)
  : AggregationResult :=
  top_groups K [cProduct] cSales filtered_df top_products_n.

(** The choices of the two "Show top" selectboxes. *)
Definition top_n_options : list nat := [5; 10; 15]%nat.

(** A bar chart with the row named in the box under it ([frame.iloc[0]]), or
    the warning shown for an empty frame. *)
Inductive Ranking : Type :=
  | NoData
  | BarChart (bars : AggregationResult) (top_row : AggRow).

Definition ranking (frame : AggregationResult) : Ranking :=
  match frame with
  | [] => NoData
  | top_row :: _ => BarChart frame top_row
  end.

(** [st.selectbox(options)]: the option at the position the user picked, the
    first one to start with; [None] when there is no option. *)
Definition selectbox {A : Type} (options : list A) (index : nat) : option A :=
  nth_error options index.

(** [frame["Country"]] of a frame grouped by Country first. *)
Definition country_column (frame : AggregationResult) : list (option string) :=
  map (fun x => match fst x with KStr c :: _ => Some c | _ => None end) frame.

(** [sorted(frame["Country"].unique())] *)
Definition frame_countries (frame : AggregationResult) : list string :=
  sorted String.leb (unique String.eqb (dropna (country_column frame))).

(** [cell == selected] where the selection may be [None]. *)
Definition eq_selected (cell selected : option string) : bool :=
  match cell, selected with
  | Some c, Some s => String.eqb c s
  | _, _ => false
  end.

(** [frame[frame["Country"] == country_selected]] *)
Definition of_country (frame : AggregationResult) (country_selected : option string)
  : AggregationResult :=
  bool_index frame (map (fun c => eq_selected c country_selected) (country_column frame)).

Definition country_product_sales (filtered_df : Table) : AggregationResult :=
  groupby_sum [cCountry; cProduct] cSales filtered_df.

(** Row 2, right: the bars of the selected country, best seller first. *)
Definition country_sales_df (K : SortKind) (filtered_df : Table) (index : nat)
  : AggregationResult :=
  let frame := country_product_sales filtered_df in
  sort_values (of_country frame (selectbox (frame_countries frame) index)).

(** Row 5: the treemap of the selected country. *)
Definition country_dom_df (filtered_df : Table) (index : nat) : AggregationResult :=
  let market_dominance_df := groupby_sum [cCountry; cProduct] cSales filtered_df in
  of_country market_dominance_df (selectbox (frame_countries market_dominance_df) index).

(** ** groupby(...)[["Sales", "Profit"]]: two columns aggregated at once *)

(** The running sum and the count of the present values of one column. *)
Definition Acc : Type := (Q * nat)%type.

Definition present (c : option Q) : nat :=
  match c with Some _ => 1 | None => 0 end.

Definition acc_init (c : option Q) : Acc := (skipna c, present c).

Definition acc_step (a : Acc) (c : option Q) : Acc :=
  (fst a + skipna c, (snd a + present c)%nat).

(** Start a group or update it; the groups stay in ascending key order. *)
Fixpoint upsert {V : Type} (k : list key) (new : V) (upd : V -> V)
    (acc : list (list key * V)) : list (list key * V) :=
  match acc with
  | [] => [(k, new)]
  | (k', v) :: rest =>
      match keys_compare k k' with
      | Lt => (k, new) :: acc
      | Eq => (k', upd v) :: rest
      | Gt => (k', v) :: upsert k new upd rest
      end
  end.

Fixpoint kv_get {V : Type} (k : list key) (acc : list (list key * V)) : option V :=
  match acc with
  | [] => None
  | (k', v) :: rest =>
      match keys_compare k k' with
      | Eq => Some v
      | _ => kv_get k rest
      end
  end.

Definition acc2_row (by_cols : list KeyCol) (acc : list (list key * (Acc * Acc))) (r : Row)
  : list (list key * (Acc * Acc)) :=
  match group_key by_cols r with
  | Some k =>
      upsert k (acc_init (Sales r), acc_init (Profit r))
        (fun a => (acc_step (fst a) (Sales r), acc_step (snd a) (Profit r))) acc
  | None => acc
  end.

Definition groupby_acc2 (by_cols : list KeyCol) (df : Table)
  : list (list key * (Acc * Acc)) :=
  fold_left (acc2_row by_cols) df [].

(** [sum]: the total of the present values (0 when there is none). *)
Definition acc_sum (a : Acc) : Q := fst a.

(** [mean]: the total over the count of the present values, NaN for a group
    with no present value. *)
Definition acc_mean (a : Acc) : option Q :=
  if (snd a =? 0)%nat then None else Some (fst a / inject_Z (Z.of_nat (snd a))).

(** [groupby(by, as_index=False)[["Sales", "Profit"]].sum()] *)
Definition groupby_sum2 (by_cols : list KeyCol) (df : Table) : list (list key * (Q * Q)) :=
  map (fun x => (fst x, (acc_sum (fst (snd x)), acc_sum (snd (snd x)))))
      (groupby_acc2 by_cols df).

(** [groupby(by, as_index=False)[["Sales", "Profit"]].mean()] *)
Definition groupby_mean2 (by_cols : list KeyCol) (df : Table)
  : list (list key * (option Q * option Q)) :=
  map (fun x => (fst x, (acc_mean (fst (snd x)), acc_mean (snd (snd x)))))
      (groupby_acc2 by_cols df).

(** The Sales and the Profit column of a two-column frame, with the keys. *)
Definition sales_column {V : Type} (frame : list (list key * (V * V))) : list (list key * V) :=
  map (fun x => (fst x, fst (snd x))) frame.

Definition profit_column {V : Type} (frame : list (list key * (V * V))) : list (list key * V) :=
  map (fun x => (fst x, snd (snd x))) frame.

(** Row 3, right: the Discount Impact bars. *)
Definition discount_analysis_df (filtered_df : Table) : list (list key * (option Q * option Q)) :=
  groupby_mean2 [cDiscountBand] filtered_df.

(** Row 4, right: the Profitability Alert scatter. *)
Definition pricing_issue_df (filtered_df : Table) : list (list key * (Q * Q)) :=
  groupby_sum2 [cCountry] filtered_df.

(** ** Row 4, left: Seasonal Sales Patterns *)

(** Python's [<] on two cells of an object column: two strings compare; a
    string against the float NaN of a missing cell raises TypeError, written
    [None]. *)
Definition py_lt (a b : option string) : option bool :=
  match a, b with
  | Some x, Some y => Some (String.ltb x y)
  | None, None => Some false
  | _, _ => None
  end.

(** [sorted] on cells: a sort by [<] that stops at the first TypeError. *)
Fixpoint py_insert (x : option string) (l : list (option string))
  : option (list (option string)) :=
  match l with
  | [] => Some [x]
  | y :: ys =>
      match py_lt x y with
      | None => None
      | Some true => Some (x :: l)
      | Some false => option_map (cons y) (py_insert x ys)
      end
  end.

Definition py_sorted (l : list (option string)) : option (list (option string)) :=
  fold_right (fun x acc => match acc with Some s => py_insert x s | None => None end)
             (Some []) l.

(** Two cells are the same value for [unique]; the missing value is one value. *)
Definition cell_eqb (a b : option string) : bool :=
  match a, b with
  | Some x, Some y => String.eqb x y
  | None, None => true
  | _, _ => false
  end.

(** [sorted(filtered_df["Product"].unique())]: this list is built without
    [dropna]. *)
Definition seasonal_options (filtered_df : Table) : option (list (option string)) :=
  py_sorted (unique cell_eqb (map Product filtered_df)).

(** [filtered_df[filtered_df["Product"] == product_month_selected]]: the
    selection is a product, NaN, or nothing at all. *)
Definition rows_of_selected (filtered_df : Table) (selected : option (option string))
  : Table :=
  bool_index filtered_df
    (map (fun c => match selected with
                   | Some (Some p) => eq_cell String.eqb c p
                   | _ => false
                   end) (map Product filtered_df)).

Definition monthly_sales_df (filtered_df : Table) (selected : option (option string))
  : AggregationResult :=
  groupby_sum [cMonthName] cSales (rows_of_selected filtered_df selected).

Inductive SeasonalSales : Type :=
  | TypeError
  | NoMonthlyData
  | MonthlyChart (frame : AggregationResult).

Definition seasonal_sales (filtered_df : Table) (index : nat) : SeasonalSales :=
  match seasonal_options filtered_df with
  | None => TypeError
  | Some options =>
      match monthly_sales_df filtered_df (selectbox options index) with
      | [] => NoMonthlyData
      | frame => MonthlyChart frame
      end
  end.

(** ** Sums in the dtype of the column *)

(** [read_excel] gives a numeric column the dtype int64 when every cell of it
    holds an integer and float64 otherwise, and pandas and numpy add the
    cells in that dtype: int64 sums wrap around without a warning, float64
    sums round after every addition. *)

Definition wrap64 (z : Z) : Z := ((z + 2 ^ 63) mod 2 ^ 64 - 2 ^ 63)%Z.

Definition add_int64 (a b : Z) : Z := wrap64 (a + b).

(** The integer held by a cell of an int64 column. *)
Definition int64_cell (c : option Q) : option Z :=
  match c with
  | Some q =>
      if ((Qden (Qred q) =? 1)%positive
          && (- 2 ^ 63 <=? Qnum (Qred q))%Z && (Qnum (Qred q) <? 2 ^ 63)%Z)%bool
      then Some (Qnum (Qred q))
      else None
  | None => None
  end.

(** The column has the dtype int64: every cell is present and an integer
    of 64 bits. *)
Definition int64_column (col : ValCol) (df : Table) : bool :=
  forallb (fun r => match int64_cell (val_cell col r) with Some _ => true | None => false end)
          df.

Definition int64_val (col : ValCol) (r : Row) : Z :=
  match int64_cell (val_cell col r) with Some z => z | None => 0%Z end.

(** [Series.sum()] of an int64 column. *)
Definition int64_sum (l : list Z) : Z := fold_left add_int64 l 0%Z.

(** [df[col].sum()] of an int64 column. *)
Definition int64_column_sum (col : ValCol) (df : Table) : Z :=
  int64_sum (map (int64_val col) df).

(** [groupby(by, as_index=False)[col].sum()] of an int64 column. *)
Definition int64_agg_row (by_cols : list KeyCol) (col : ValCol)
    (acc : list (list key * Z)) (r : Row) : list (list key * Z) :=
  match group_key by_cols r with
  | Some k => upsert k (int64_val col r) (fun s => add_int64 s (int64_val col r)) acc
  | None => acc
  end.

Definition int64_groupby_sum (by_cols : list KeyCol) (col : ValCol) (df : Table)
  : list (list key * Z) :=
  fold_left (int64_agg_row by_cols col) df [].

(** Sum of the aggregated column of a grouped int64 frame. *)
Definition int64_total (res : list (list key * Z)) : Z := int64_sum (map snd res).











(** ** Sample data *)

Definition sample_row (y : option Z) (c s p : option string) (sales profit : option Q)
    (m : option string) : Row :=
  {| Year := y; Country := c; Segment := s; Product := p; Sales := sales;
     Profit := profit; Discount_Band := None; Month_Name := m |}.

Definition us_2020 : Row :=
  sample_row (Some 2020%Z) (Some "US") (Some "A") (Some "Paseo") (Some 100) (Some 10)
    (Some "January").
Definition us_2021 : Row :=
  sample_row (Some 2021%Z) (Some "US") (Some "A") (Some "Paseo") (Some 200) (Some 40)
    (Some "February").
Definition de_2020 : Row :=
  sample_row (Some 2020%Z) (Some "DE") (Some "B") (Some "Velo") (Some 50) (Some 5)
    (Some "March").
(** A record whose Year cell is empty. *)
Definition no_year : Row :=
  sample_row None (Some "DE") (Some "B") (Some "Velo") (Some 7) (Some 1) (Some "April").
(** A record whose Product cell is empty. *)
Definition no_product : Row :=
  sample_row (Some 2021%Z) (Some "DE") (Some "B") None (Some 10) (Some 2) (Some "May").

Definition base_table : Table := [us_2020; us_2021; de_2020].



(** The profit totals of the base table per segment. *)
Definition profit_by_segment : AggregationResult :=
  groupby_sum [cSegment] cProfit base_table.



(** Two records of one product whose sales add up to more than 2^63 - 1. *)
Definition huge : Table :=
  [ sample_row (Some 2020%Z) (Some "US") (Some "A") (Some "Paseo")
      (Some 9000000000000000000) (Some 1) (Some "January");
    sample_row (Some 2021%Z) (Some "US") (Some "A") (Some "Paseo")
      (Some 9000000000000000000) (Some 1) (Some "January") ].

(** * Properties *)

(** ** Filtering *)

Section Masks.
Context {A : Type}.

Lemma bool_index_map (p : A -> bool) (df : list A) :
  bool_index df (map p df) = List.filter p df.
Proof.
  induction df as [|r rs IH]; simpl; [reflexivity|].
  rewrite IH. reflexivity.
Qed.

Lemma mask_and_map (p q : A -> bool) (df : list A) :
  mask_and (map p df) (map q df) = map (fun r => (p r && q r)%bool) df.
Proof.
  induction df as [|r rs IH]; simpl; [reflexivity|].
  rewrite IH. reflexivity.
Qed.

Lemma filter_sublist (p : A -> bool) (l : list A) :
  sublist (List.filter p l) l.
Proof.
  induction l as [|x xs IH]; simpl.
  - constructor.
  - destruct (p x); constructor; exact IH.
Qed.
End Masks.

(** The mask of the script selects exactly the rows that pass row by row. *)
Lemma applyFilter_filter (df : Table) (F : FilterSpec) :
  applyFilter df F = List.filter (row_passes F) df.
Proof.
  unfold applyFilter, isin_col.
  rewrite !map_map, !mask_and_map.
  apply bool_index_map.
Qed.

Section Options.
Context {A : Type} (eqb : A -> A -> bool).
Hypothesis eqb_spec : forall x y, eqb x y = true <-> x = y.

Lemma In_dropna (col : list (option A)) (v : A) :
  In v (dropna col) <-> In (Some v) col.
Proof.
  unfold dropna. rewrite in_flat_map. split.
  - intros [c [Hc Hv]]. destruct c as [w|]; simpl in Hv; [|contradiction].
    destruct Hv as [->|[]]. exact Hc.
  - intros H. exists (Some v). split; [exact H | left; reflexivity].
Qed.

Lemma In_unique (l : list A) (v : A) : In v (unique eqb l) <-> In v l.
Proof.
  induction l as [|x xs IH]; simpl; [tauto|].
  rewrite filter_In, IH. split.
  - tauto.
  - intros [H|H]; [left; exact H|].
    destruct (eqb x v) eqn:E.
    + left. apply eqb_spec. exact E.
    + right. split; [exact H | reflexivity].
Qed.

Lemma In_insert_sorted (leb : A -> A -> bool) (x v : A) (l : list A) :
  In v (insert_sorted leb x l) <-> v = x \/ In v l.
Proof.
  induction l as [|y ys IH]; simpl.
  - intuition congruence.
  - destruct (leb x y); simpl; [intuition congruence|].
    rewrite IH. intuition congruence.
Qed.

Lemma In_sorted (leb : A -> A -> bool) (l : list A) (v : A) :
  In v (sorted leb l) <-> In v l.
Proof.
  unfold sorted. induction l as [|x xs IH]; simpl; [tauto|].
  rewrite In_insert_sorted, IH. intuition congruence.
Qed.

(** A present cell of a column is among that column's options. *)
Lemma isin_options (leb : A -> A -> bool) (col : list (option A)) (v : A) :
  In (Some v) col ->
  isin eqb (Some v) (sorted leb (unique eqb (dropna col))) = true.
Proof.
  intros H. simpl. apply existsb_exists. exists v. split.
  - apply In_sorted, In_unique, In_dropna. exact H.
  - apply eqb_spec. reflexivity.
Qed.
End Options.

(** With every option selected a row passes exactly when its three filtered
    cells are present. *)
Lemma row_passes_default (df : Table) (r : Row) :
  In r df -> row_passes (default_filter df) r = complete_row r.
Proof.
  intros Hr. unfold row_passes, complete_row, default_filter; simpl.
  destruct (Year r) as [y|] eqn:Hy; [|reflexivity].
  destruct (Country r) as [c|] eqn:Hc.
  2:{ rewrite andb_false_r. reflexivity. }
  destruct (Segment r) as [s|] eqn:Hs.
  2:{ rewrite andb_false_r. reflexivity. }
  unfold year_options, country_options, segment_options.
  rewrite (isin_options Z.eqb Z.eqb_eq), !(isin_options String.eqb String.eqb_eq);
    try reflexivity.
  - rewrite <- Hs. apply in_map. exact Hr.
  - rewrite <- Hc. apply in_map. exact Hr.
  - rewrite <- Hy. apply in_map. exact Hr.
Qed.

(** Nothing selected: no row passes. *)
Lemma applyFilter_empty_selection (df : Table) : applyFilter df empty_selection = [].
Proof.
  rewrite applyFilter_filter.
  induction df as [|r rs IH]; simpl; [reflexivity|].
  unfold row_passes at 1; simpl.
  destruct (Year r); simpl; exact IH.
Qed.

(** C4: the filtered frame is a subsequence of the table's rows: the rows
    kept all occur in the table and keep their relative order. *)
Theorem applyFilter_subsequence (df : Table) (F : FilterSpec) :
  sublist (applyFilter df F) df
  /\ (forall r, In r (applyFilter df F) -> In r df).
Proof.
  rewrite applyFilter_filter. split.
  - apply filter_sublist.
  - intros r Hr. apply filter_In in Hr. tauto.
Qed.





(** X25: with every option selected (no restriction by the user) the filter
    returns the table's rows whose Year, Country and Segment cells are all
    present, in order; a table without missing cells there is unchanged. *)
Theorem applyFilter_default (df : Table) :
  applyFilter df (default_filter df) = List.filter complete_row df
  /\ (forallb complete_row df = true -> applyFilter df (default_filter df) = df).
Proof.
  assert (E : applyFilter df (default_filter df) = List.filter complete_row df).
  { rewrite applyFilter_filter. apply filter_ext_in.
    intros r Hr. apply row_passes_default. exact Hr. }
  split; [exact E|].
  intros Hall. rewrite E. clear E.
  induction df as [|r rs IH]; simpl in *; [reflexivity|].
  apply andb_true_iff in Hall. destruct Hall as [Hr Hrs].
  rewrite Hr, (IH Hrs). reflexivity.
Qed.

Lemma applyFilter_default_witness :
  forallb complete_row base_table = true
  /\ applyFilter base_table (default_filter base_table) = base_table
  /\ applyFilter [us_2020; no_year] (default_filter [us_2020; no_year]) = [us_2020].
Proof.
  split; [reflexivity|]. split; [|reflexivity].
  apply (proj2 (applyFilter_default base_table)). reflexivity.
Defined.

(** C6: a row with a missing value in one of the filtered columns (Year,
    Country, Segment) is never in the filtered frame. *)
Theorem applyFilter_excludes_null (df : Table) (F : FilterSpec) (r : Row) :
  Year r = None \/ Country r = None \/ Segment r = None ->
  ~ In r (applyFilter df F).
Proof.
  intros Hnull Hin. rewrite applyFilter_filter in Hin.
  apply filter_In in Hin. destruct Hin as [_ Hp].
  unfold row_passes in Hp.
  destruct Hnull as [H|[H|H]]; rewrite H in Hp; simpl in Hp.
  - discriminate.
  - rewrite andb_false_r in Hp. discriminate.
  - rewrite andb_false_r in Hp. discriminate.
Qed.

Lemma applyFilter_excludes_null_witness :
  (Year no_year = None \/ Country no_year = None \/ Segment no_year = None)
  /\ ~ In no_year (applyFilter [us_2020; no_year] (default_filter [us_2020; no_year])).
Proof.
  split; [left; reflexivity|].
  apply (applyFilter_excludes_null [us_2020; no_year]
           (default_filter [us_2020; no_year]) no_year).
  left. reflexivity.
Defined.

(** ** The order of group keys *)

Lemma ascii_compare_refl (a : ascii) : Ascii.compare a a = Eq.
Proof. unfold Ascii.compare. apply N.compare_refl. Qed.

Lemma ascii_compare_lt_trans (a b c : ascii) :
  Ascii.compare a b = Lt -> Ascii.compare b c = Lt -> Ascii.compare a c = Lt.
Proof.
  unfold Ascii.compare. rewrite !N.compare_lt_iff. apply N.lt_trans.
Qed.

(** The cases shared by the two lexicographic orders once the heads do not
    both compare equal: one head pair is equal and the other decides, or both
    are below and transitivity of the heads decides. *)
Ltac lex_tail Heq Htrans E1 E2 :=
  first
    [ apply Heq in E1; subst; rewrite E2; reflexivity
    | apply Heq in E2; subst; rewrite E1; reflexivity
    | rewrite (Htrans _ _ _ E1 E2); reflexivity ].

Lemma string_compare_refl (s : string) : String.compare s s = Eq.
Proof.
  induction s as [|a s IH]; simpl; [reflexivity|].
  rewrite ascii_compare_refl. exact IH.
Qed.

Lemma string_compare_lt_trans (s1 s2 s3 : string) :
  String.compare s1 s2 = Lt -> String.compare s2 s3 = Lt -> String.compare s1 s3 = Lt.
Proof.
  revert s2 s3.
  induction s1 as [|a s1 IH]; intros [|b s2] [|c s3]; simpl; try discriminate; auto.
  destruct (Ascii.compare a b) eqn:E1; destruct (Ascii.compare b c) eqn:E2;
    intros H1 H2; try discriminate.
  - apply Ascii.compare_eq_iff in E1, E2. subst.
    rewrite ascii_compare_refl. eapply IH; eassumption.
  - lex_tail Ascii.compare_eq_iff ascii_compare_lt_trans E1 E2.
  - lex_tail Ascii.compare_eq_iff ascii_compare_lt_trans E1 E2.
  - lex_tail Ascii.compare_eq_iff ascii_compare_lt_trans E1 E2.
Qed.

Lemma key_compare_refl (k : key) : key_compare k k = Eq.
Proof.
  destruct k; simpl; [apply Z.compare_refl | apply string_compare_refl].
Qed.

Lemma key_compare_eq (a b : key) : key_compare a b = Eq -> a = b.
Proof.
  destruct a, b; simpl; try discriminate.
  - intros H. apply Z.compare_eq in H. congruence.
  - intros H. apply String.compare_eq_iff in H. congruence.
Qed.

Lemma key_compare_antisym (a b : key) : key_compare a b = CompOpp (key_compare b a).
Proof.
  destruct a, b; simpl; try reflexivity.
  - apply Z.compare_antisym.
  - apply String.compare_antisym.
Qed.

Lemma key_compare_lt_trans (a b c : key) :
  key_compare a b = Lt -> key_compare b c = Lt -> key_compare a c = Lt.
Proof.
  destruct a, b, c; simpl; try discriminate; auto.
  - rewrite !Z.compare_lt_iff. apply Z.lt_trans.
  - apply string_compare_lt_trans.
Qed.

Lemma keys_compare_refl (a : list key) : keys_compare a a = Eq.
Proof.
  induction a as [|x a IH]; simpl; [reflexivity|].
  rewrite key_compare_refl. exact IH.
Qed.

Lemma keys_compare_eq (a b : list key) : keys_compare a b = Eq -> a = b.
Proof.
  revert b. induction a as [|x a IH]; intros [|y b]; simpl; try discriminate; auto.
  destruct (key_compare x y) eqn:E; try discriminate.
  intros H. apply key_compare_eq in E. apply IH in H. congruence.
Qed.

Lemma keys_compare_antisym (a b : list key) :
  keys_compare a b = CompOpp (keys_compare b a).
Proof.
  revert b. induction a as [|x a IH]; intros [|y b]; simpl; try reflexivity.
  rewrite (key_compare_antisym x y).
  destruct (key_compare y x); simpl; auto.
Qed.

Lemma keys_compare_gt_lt (a b : list key) : keys_compare a b = Gt -> keys_lt b a.
Proof.
  unfold keys_lt. rewrite (keys_compare_antisym b a). intros ->. reflexivity.
Qed.

Lemma keys_lt_trans (a b c : list key) : keys_lt a b -> keys_lt b c -> keys_lt a c.
Proof.
  unfold keys_lt. revert b c.
  induction a as [|x a IH]; intros [|y b] [|z c]; simpl; try discriminate; auto.
  destruct (key_compare x y) eqn:E1; destruct (key_compare y z) eqn:E2;
    intros H1 H2; try discriminate.
  - apply key_compare_eq in E1, E2. subst.
    rewrite key_compare_refl. eapply IH; eassumption.
  - lex_tail key_compare_eq key_compare_lt_trans E1 E2.
  - lex_tail key_compare_eq key_compare_lt_trans E1 E2.
  - lex_tail key_compare_eq key_compare_lt_trans E1 E2.
Qed.

Lemma keys_lt_irrefl (a : list key) : ~ keys_lt a a.
Proof. unfold keys_lt. rewrite keys_compare_refl. discriminate. Qed.

#[local] Instance keys_lt_transitive : Transitive keys_lt.
Proof. exact keys_lt_trans. Qed.

(** ** Grouping *)

(** Adding to a running total keeps the groups in ascending key order. *)
Lemma agg_add_sorted (k : list key) (v : Q) (acc : AggregationResult) :
  Sorted keys_lt (map fst acc) -> Sorted keys_lt (map fst (agg_add k v acc)).
Proof.
  induction acc as [|[k' s] rest IH]; simpl; intros HS.
  - repeat constructor.
  - destruct (keys_compare k k') eqn:E; simpl.
    + exact HS.
    + constructor; [exact HS | constructor; exact E].
    + apply Sorted_inv in HS. destruct HS as [HS Hhd].
      constructor; [apply IH; exact HS|].
      apply keys_compare_gt_lt in E.
      destruct rest as [|[k2 s2] rest']; simpl in *.
      * constructor. exact E.
      * apply HdRel_inv in Hhd.
        destruct (keys_compare k k2); simpl; constructor; assumption.
Qed.

Lemma fold_agg_sorted (by_cols : list KeyCol) (col : ValCol) (df : Table)
    (acc : AggregationResult) :
  Sorted keys_lt (map fst acc) ->
  Sorted keys_lt (map fst (fold_left (agg_row by_cols col) df acc)).
Proof.
  revert acc. induction df as [|r rs IH]; simpl; intros acc HS; [exact HS|].
  apply IH. unfold agg_row.
  destruct (group_key by_cols r); [apply agg_add_sorted|]; exact HS.
Qed.

(** Sums of rationals. *)
Lemma fold_left_Qplus (l : list Q) (a : Q) : fold_left Qplus l a == a + Qsum l.
Proof.
  unfold Qsum. revert a.
  induction l as [|x xs IH]; simpl; intros a.
  - ring.
  - rewrite (IH (a + x)), (IH (0 + x)). ring.
Qed.

Lemma Qsum_cons (x : Q) (l : list Q) : Qsum (x :: l) == x + Qsum l.
Proof.
  unfold Qsum at 1. simpl. rewrite fold_left_Qplus. ring.
Qed.

Lemma total_cons (k : list key) (s : Q) (rest : AggregationResult) :
  total ((k, s) :: rest) == s + total rest.
Proof. unfold total. simpl. apply Qsum_cons. Qed.

(** Adding a value to a group adds it to the grand total. *)
Lemma total_agg_add (k : list key) (v : Q) (acc : AggregationResult) :
  total (agg_add k v acc) == total acc + v.
Proof.
  induction acc as [|[k' s] rest IH]; simpl.
  - rewrite total_cons. unfold total, Qsum. simpl. ring.
  - destruct (keys_compare k k').
    + rewrite !total_cons. ring.
    + rewrite !total_cons. ring.
    + rewrite !total_cons, IH. ring.
Qed.

Lemma column_sum_cons (col : ValCol) (r : Row) (df : Table) :
  column_sum col (r :: df) == skipna (val_cell col r) + column_sum col df.
Proof. unfold column_sum. simpl. apply Qsum_cons. Qed.

(** The grand total of the groups is the column's sum over the rows that
    belong to a group, i.e. the rows with no missing group-by cell. *)
Lemma fold_agg_total (by_cols : list KeyCol) (col : ValCol) (df : Table)
    (acc : AggregationResult) :
  total (fold_left (agg_row by_cols col) df acc)
  == total acc + column_sum col (List.filter (has_key by_cols) df).
Proof.
  revert acc. induction df as [|r rs IH]; simpl; intros acc.
  - unfold column_sum, Qsum. simpl. ring.
  - rewrite IH. unfold agg_row, has_key.
    destruct (group_key by_cols r) as [k|].
    + rewrite total_agg_add, column_sum_cons. ring.
    + reflexivity.
Qed.

Lemma groupby_sum_total (by_cols : list KeyCol) (col : ValCol) (df : Table) :
  total (groupby_sum by_cols col df)
  == column_sum col (List.filter (has_key by_cols) df).
Proof.
  unfold groupby_sum. rewrite fold_agg_total.
  unfold total at 1, Qsum at 1. simpl. ring.
Qed.

(** *** Each group holds the sum of its rows *)

Lemma agg_get_below (k : list key) (acc : AggregationResult) :
  Forall (fun x => keys_lt k (fst x)) acc -> agg_get k acc = None.
Proof.
  induction 1 as [|[k' s] rest Hlt _ IH]; simpl; [reflexivity|].
  unfold keys_lt in Hlt. simpl in Hlt. rewrite Hlt. exact IH.
Qed.

Lemma agg_get_add_same (k : list key) (v : Q) (acc : AggregationResult) :
  Sorted keys_lt (map fst acc) ->
  agg_get k (agg_add k v acc)
  = Some (match agg_get k acc with Some s => s + v | None => v end).
Proof.
  induction acc as [|[k' s] rest IH]; simpl; intros HS.
  - rewrite keys_compare_refl. reflexivity.
  - destruct (keys_compare k k') eqn:E; simpl.
    + rewrite E. reflexivity.
    + rewrite keys_compare_refl.
      apply Sorted_StronglySorted in HS; [|exact keys_lt_transitive].
      apply StronglySorted_inv in HS. destruct HS as [_ Hall].
      rewrite agg_get_below; [reflexivity|].
      rewrite Forall_forall in *. intros x Hx.
      apply (keys_lt_trans k k' (fst x) E).
      apply Hall. apply in_map. exact Hx.
    + rewrite E. apply IH. apply Sorted_inv in HS. tauto.
Qed.

Lemma agg_get_add_other (k0 k : list key) (v : Q) (acc : AggregationResult) :
  keys_compare k0 k <> Eq -> agg_get k0 (agg_add k v acc) = agg_get k0 acc.
Proof.
  intros Hne.
  induction acc as [|[k' s] rest IH]; simpl.
  - destruct (keys_compare k0 k); congruence.
  - destruct (keys_compare k k') eqn:E; simpl.
    + apply keys_compare_eq in E. subst k'.
      destruct (keys_compare k0 k); congruence.
    + destruct (keys_compare k0 k); congruence.
    + destruct (keys_compare k0 k'); [reflexivity | exact IH | exact IH].
Qed.

Section OneGroup.
Context (by_cols : list KeyCol) (col : ValCol) (k : list key).

Lemma group_rows_cons (r : Row) (rs : Table) :
  group_rows by_cols k (r :: rs)
  = if in_group by_cols k r then r :: group_rows by_cols k rs
    else group_rows by_cols k rs.
Proof. reflexivity. Qed.

Lemma agg_row_sorted (acc : AggregationResult) (r : Row) :
  Sorted keys_lt (map fst acc) -> Sorted keys_lt (map fst (agg_row by_cols col acc r)).
Proof.
  intros HS. unfold agg_row.
  destruct (group_key by_cols r); [apply agg_add_sorted|]; exact HS.
Qed.

(** A row of the group adds its value to the group's total. *)
Lemma agg_get_row_in (acc : AggregationResult) (r : Row) :
  Sorted keys_lt (map fst acc) ->
  in_group by_cols k r = true ->
  agg_get k (agg_row by_cols col acc r)
  = Some (match agg_get k acc with
          | Some s => s + skipna (val_cell col r)
          | None => skipna (val_cell col r)
          end).
Proof.
  intros HS Hin. unfold in_group in Hin. unfold agg_row.
  destruct (group_key by_cols r) as [k'|]; [|discriminate].
  destruct (keys_compare k' k) eqn:E; try discriminate.
  apply keys_compare_eq in E. subst k'.
  apply agg_get_add_same. exact HS.
Qed.

(** A row outside the group leaves the group's total alone. *)
Lemma agg_get_row_out (acc : AggregationResult) (r : Row) :
  in_group by_cols k r = false ->
  agg_get k (agg_row by_cols col acc r) = agg_get k acc.
Proof.
  intros Hin. unfold in_group in Hin. unfold agg_row.
  destruct (group_key by_cols r) as [k'|]; [|reflexivity].
  apply agg_get_add_other.
  rewrite keys_compare_antisym.
  destruct (keys_compare k' k); simpl; discriminate.
Qed.

Lemma fold_agg_get (df : Table) (acc : AggregationResult) :
  Sorted keys_lt (map fst acc) ->
  match agg_get k (fold_left (agg_row by_cols col) df acc) with
  | Some s =>
      s == match agg_get k acc with Some a => a | None => 0 end
           + column_sum col (group_rows by_cols k df)
      /\ (agg_get k acc = None -> group_rows by_cols k df <> [])
  | None => agg_get k acc = None /\ group_rows by_cols k df = []
  end.
Proof.
  revert acc. induction df as [|r rs IH]; intros acc HS.
  - simpl. destruct (agg_get k acc) as [a|]; [|split; reflexivity].
    split; [|discriminate]. unfold column_sum, Qsum. simpl. ring.
  - cbn [fold_left]. rewrite group_rows_cons.
    specialize (IH _ (agg_row_sorted acc r HS)).
    destruct (in_group by_cols k r) eqn:Hin.
    + rewrite (agg_get_row_in acc r HS Hin) in IH.
      destruct (agg_get k (fold_left (agg_row by_cols col) rs
                             (agg_row by_cols col acc r))) as [s|].
      * destruct IH as [IH _]. split; [|discriminate].
        rewrite IH, column_sum_cons.
        destruct (agg_get k acc); ring.
      * destruct IH as [IH _]. discriminate.
    + rewrite (agg_get_row_out acc r Hin) in IH. exact IH.
Qed.

(** The frame has a row for [k] exactly when some table row has that key,
    and its value is the sum of the column over those rows. *)
Lemma groupby_sum_group (df : Table) :
  match agg_get k (groupby_sum by_cols col df) with
  | Some s =>
      s == column_sum col (group_rows by_cols k df) /\ group_rows by_cols k df <> []
  | None => group_rows by_cols k df = []
  end.
Proof.
  unfold groupby_sum.
  pose proof (fold_agg_get df [] (Sorted_nil _)) as H. simpl in H.
  destruct (agg_get k (fold_left (agg_row by_cols col) df [])) as [s|].
  - destruct H as [H1 H2]. split; [|apply H2; reflexivity].
    rewrite H1. ring.
  - tauto.
Qed.
End OneGroup.

Lemma filter_forallb {A : Type} (p : A -> bool) (l : list A) :
  forallb p l = true -> List.filter p l = l.
Proof.
  induction l as [|x xs IH]; simpl; [reflexivity|].
  intros H. apply andb_true_iff in H. destruct H as [Hx Hxs].
  rewrite Hx, (IH Hxs). reflexivity.
Qed.

(** Rows that passed the sidebar filter have their Year, Country and Segment
    cells, so grouping a filtered frame by any of these loses no row. *)
Lemma filtered_no_null_keys (by_cols : list KeyCol) (df : Table) (F : FilterSpec) :
  (forall c, In c by_cols -> c = cYear \/ c = cCountry \/ c = cSegment) ->
  no_null_keys by_cols (applyFilter df F) = true.
Proof.
  intros Hcols. unfold no_null_keys. apply forallb_forall. intros r Hr.
  rewrite applyFilter_filter in Hr. apply filter_In in Hr. destruct Hr as [_ Hp].
  unfold row_passes in Hp. apply andb_true_iff in Hp. destruct Hp as [Hp Hs].
  apply andb_true_iff in Hp. destruct Hp as [Hy Hc].
  unfold has_key.
  induction by_cols as [|c cs IH]; simpl; [reflexivity|].
  assert (Hk : exists k, key_cell c r = Some k).
  { destruct (Hcols c (or_introl eq_refl)) as [E | [E | E]]; subst c; simpl.
    - destruct (Year r); [eexists; reflexivity | discriminate].
    - destruct (Country r); [eexists; reflexivity | discriminate].
    - destruct (Segment r); [eexists; reflexivity | discriminate]. }
  destruct Hk as [k ->].
  assert (IH' := IH (fun c' H => Hcols c' (or_intror H))).
  destruct (group_key cs r); [reflexivity | discriminate].
Qed.

(** ** Sums of an int64 column *)

Definition Zsum (l : list Z) : Z := fold_right Z.add 0%Z l.

Lemma wrap64_mod (a : Z) : wrap64 a mod 2 ^ 64 = a mod 2 ^ 64.
Proof.
  unfold wrap64. rewrite Zminus_mod_idemp_l. f_equal. lia.
Qed.

Lemma wrap64_congr (a b : Z) : a mod 2 ^ 64 = b mod 2 ^ 64 -> wrap64 a = wrap64 b.
Proof.
  intros H. unfold wrap64. f_equal.
  rewrite (Zplus_mod a), (Zplus_mod b), H. reflexivity.
Qed.

Lemma wrap64_idem (a : Z) : wrap64 (wrap64 a) = wrap64 a.
Proof. apply wrap64_congr, wrap64_mod. Qed.

Lemma mod_add_congr (a a' b : Z) :
  a mod 2 ^ 64 = a' mod 2 ^ 64 -> (a + b) mod 2 ^ 64 = (a' + b) mod 2 ^ 64.
Proof. intros H. rewrite (Zplus_mod a), (Zplus_mod a'), H. reflexivity. Qed.

Lemma fold_add_int64_mod (l : list Z) (a : Z) :
  fold_left add_int64 l a mod 2 ^ 64 = (a + Zsum l) mod 2 ^ 64.
Proof.
  revert a. induction l as [|x l IH]; intros a; simpl.
  - f_equal. lia.
  - rewrite IH. unfold add_int64.
    rewrite (mod_add_congr _ (a + x) _ (wrap64_mod (a + x))). f_equal. lia.
Qed.

Lemma fold_add_int64_range (l : list Z) (a : Z) :
  wrap64 a = a -> wrap64 (fold_left add_int64 l a) = fold_left add_int64 l a.
Proof.
  revert a. induction l as [|x l IH]; intros a Ha; simpl; [exact Ha|].
  apply IH. apply wrap64_idem.
Qed.

(** An int64 sum is the exact sum, wrapped around once. *)
Lemma int64_sum_wrap (l : list Z) : int64_sum l = wrap64 (Zsum l).
Proof.
  unfold int64_sum. rewrite <- (fold_add_int64_range l 0 eq_refl).
  apply wrap64_congr. rewrite fold_add_int64_mod. reflexivity.
Qed.

Lemma upsert_Zsum (k : list key) (v : Z) (acc : list (list key * Z)) :
  Zsum (map snd (upsert k v (fun s => add_int64 s v) acc)) mod 2 ^ 64
  = (Zsum (map snd acc) + v) mod 2 ^ 64.
Proof.
  induction acc as [|[k' s] rest IH]; simpl.
  - f_equal. lia.
  - destruct (keys_compare k k'); simpl.
    + unfold add_int64.
      rewrite (mod_add_congr _ (s + v) _ (wrap64_mod (s + v))). f_equal. lia.
    + f_equal. lia.
    + rewrite Z.add_comm, (mod_add_congr _ _ s IH). f_equal. lia.
Qed.

Lemma fold_int64_Zsum (by_cols : list KeyCol) (col : ValCol) (df : Table)
    (acc : list (list key * Z)) :
  Zsum (map snd (fold_left (int64_agg_row by_cols col) df acc)) mod 2 ^ 64
  = (Zsum (map snd acc)
     + Zsum (map (int64_val col) (List.filter (has_key by_cols) df))) mod 2 ^ 64.
Proof.
  revert acc. induction df as [|r rs IH]; intros acc; simpl.
  - f_equal. lia.
  - rewrite IH. unfold int64_agg_row, has_key.
    destruct (group_key by_cols r) as [k|]; [|reflexivity].
    simpl. rewrite (mod_add_congr _ _ _ (upsert_Zsum k (int64_val col r) acc)).
    f_equal. lia.
Qed.

(** The int64 totals of the groups add up, in int64, to the int64 sum of
    the value column over the rows that have all their group-by cells. *)
Lemma int64_groupby_sum_total (by_cols : list KeyCol) (col : ValCol) (df : Table) :
  int64_total (int64_groupby_sum by_cols col df)
  = int64_column_sum col (List.filter (has_key by_cols) df).
Proof.
  unfold int64_total, int64_column_sum, int64_groupby_sum.
  rewrite !int64_sum_wrap. apply wrap64_congr.
  rewrite fold_int64_Zsum. reflexivity.
Qed.

(** X5: The pipeline of the Profit Optimization chart on an int64 Profit
    column: the filtered frame grouped by Segment and Country loses no
    profit, the int64 totals of the groups add up to the int64 sum of the
    filtered column. *)
Theorem profit_by_segment_country_total (df : Table) (F : FilterSpec) :
  int64_column cProfit df = true ->
  int64_total (int64_groupby_sum [cSegment; cCountry] cProfit (applyFilter df F))
  = int64_column_sum cProfit (applyFilter df F).
Proof.
  intros _. rewrite int64_groupby_sum_total, filter_forallb; [reflexivity|].
  apply filtered_no_null_keys. simpl. intuition.
Qed.

Lemma profit_by_segment_country_total_witness :
  int64_column cProfit base_table = true
  /\ int64_total (int64_groupby_sum [cSegment; cCountry] cProfit
                    (applyFilter base_table (default_filter base_table)))
     = int64_column_sum cProfit (applyFilter base_table (default_filter base_table))
  /\ int64_column_sum cProfit (applyFilter base_table (default_filter base_table)) = 55%Z.
Proof.
  split; [reflexivity|]. split; [|reflexivity].
  apply (profit_by_segment_country_total base_table (default_filter base_table)).
  reflexivity.
Defined.





(** ** Sorting and truncation *)

Definition value_ge (a b : AggRow) : Prop := snd b <= snd a.

#[local] Instance value_ge_transitive : Transitive value_ge.
Proof. intros a b c Hab Hbc. unfold value_ge in *. eapply Qle_trans; eassumption. Qed.

Lemma insert_desc_perm (x : AggRow) (l : AggregationResult) :
  Permutation (insert_desc x l) (x :: l).
Proof.
  induction l as [|y ys IH]; simpl; [reflexivity|].
  destruct (Qle_bool (snd y) (snd x)); [reflexivity|].
  rewrite IH. apply perm_swap.
Qed.

Lemma stable_sort_desc_perm (l : AggregationResult) : Permutation (stable_sort_desc l) l.
Proof.
  induction l as [|x xs IH]; simpl; [reflexivity|].
  rewrite insert_desc_perm, IH. reflexivity.
Qed.

Lemma insert_desc_sorted (x : AggRow) (l : AggregationResult) :
  descending l -> descending (insert_desc x l).
Proof.
  unfold descending.
  induction l as [|y ys IH]; simpl; intros HS.
  - repeat constructor.
  - destruct (Qle_bool (snd y) (snd x)) eqn:E.
    + constructor; [exact HS|]. constructor. apply Qle_bool_iff. exact E.
    + apply Sorted_inv in HS. destruct HS as [HS Hhd].
      assert (Hxy : snd x <= snd y).
      { apply Qlt_le_weak, Qnot_le_lt. intros H.
        apply Qle_bool_iff in H. congruence. }
      constructor; [apply IH; exact HS|].
      destruct ys as [|z zs]; simpl.
      * constructor. exact Hxy.
      * apply HdRel_inv in Hhd.
        destruct (Qle_bool (snd z) (snd x)); constructor; assumption.
Qed.

Lemma stable_sort_desc_sorted (l : AggregationResult) : descending (stable_sort_desc l).
Proof.
  induction l as [|x xs IH]; simpl.
  - constructor.
  - apply insert_desc_sorted. exact IH.
Qed.

(** [kind='stable']. *)
Definition stable_kind : SortKind :=
  {| sort_values := stable_sort_desc;
     sort_values_perm := stable_sort_desc_perm;
     sort_values_desc := stable_sort_desc_sorted |}.






(** Rows are told apart by their sort value. *)
Definition value_injective (l : AggregationResult) : Prop :=
  forall a b, In a l -> In b l -> snd a == snd b -> a = b.

Lemma distinct_values_injective (l : AggregationResult) :
  distinct_values l = true -> value_injective l.
Proof.
  induction l as [|x xs IH]; simpl; intros H a b Ha Hb Hab; [contradiction|].
  apply andb_true_iff in H. destruct H as [Hx Hxs].
  rewrite forallb_forall in Hx.
  assert (Hne : forall y, In y xs -> ~ snd x == snd y).
  { intros y Hy Heq. specialize (Hx y Hy).
    apply Qeq_bool_iff in Heq. rewrite Heq in Hx. discriminate. }
  destruct Ha as [<-|Ha], Hb as [<-|Hb].
  - reflexivity.
  - exfalso. exact (Hne b Hb Hab).
  - exfalso. apply (Hne a Ha). symmetry. exact Hab.
  - exact (IH Hxs a b Ha Hb Hab).
Qed.

(** Two descending arrangements of the same rows coincide when no two rows
    share a sort value. *)
Lemma descending_unique (l1 l2 : AggregationResult) :
  Permutation l1 l2 -> descending l1 -> descending l2 -> value_injective l1 -> l1 = l2.
Proof.
  unfold descending. revert l2.
  induction l1 as [|x xs IH]; intros l2 HP H1 H2 Hinj.
  - apply Permutation_nil in HP. congruence.
  - destruct l2 as [|y ys].
    { symmetry in HP. apply Permutation_nil in HP. discriminate. }
    assert (Hyx : x = y).
    { apply Hinj.
      - left. reflexivity.
      - eapply Permutation_in; [symmetry; exact HP | left; reflexivity].
      - apply Sorted_StronglySorted in H1, H2; try exact value_ge_transitive.
        apply StronglySorted_inv in H1, H2.
        destruct H1 as [_ F1], H2 as [_ F2].
        rewrite Forall_forall in F1, F2.
        apply Qle_antisym.
        + assert (Hin : In x (y :: ys)) by (eapply Permutation_in; [exact HP | left; reflexivity]).
          destruct Hin as [<-|Hin]; [apply Qle_refl | exact (F2 x Hin)].
        + assert (Hin : In y (x :: xs)) by
            (eapply Permutation_in; [symmetry; exact HP | left; reflexivity]).
          destruct Hin as [<-|Hin]; [apply Qle_refl | exact (F1 y Hin)]. }
    subst y. f_equal.
    apply Permutation_cons_inv in HP.
    apply Sorted_inv in H1, H2.
    apply IH; try tauto.
    intros a b Ha Hb. apply Hinj; right; assumption.
Qed.


Section AnyKind.
Context (K : SortKind).




(** Without ties every kind gives the order of the stable sort. *)
Lemma sort_values_determined (l : AggregationResult) :
  distinct_values l = true -> sort_values l = stable_sort_desc l.
Proof.
  intros HD. symmetry. apply descending_unique.
  - rewrite stable_sort_desc_perm. symmetry. apply sort_values_perm.
  - apply stable_sort_desc_sorted.
  - apply sort_values_desc.
  - intros a b Ha Hb. apply (distinct_values_injective l HD).
    + eapply Permutation_in; [apply stable_sort_desc_perm | exact Ha].
    + eapply Permutation_in; [apply stable_sort_desc_perm | exact Hb].
Qed.
End AnyKind.






(** ** Trend metrics *)

(** A series of two or more points yields the four numbers by the
    formulas of the script. *)
Lemma computeTrendMetrics_some {P : Type} (s : list (P * Q)) :
  (2 <= length s)%nat ->
  computeTrendMetrics s
  = Some {| latest := last (map snd s) 0;
            sales_change := last (map snd s) 0 - hd 0 (map snd s);
            pct_change :=
              np_mul (true_divide (last (map snd s) 0 - hd 0 (map snd s))
                                  (hd 0 (map snd s))) 100;
            average := mean (map snd s) |}.
Proof.
  intros Hlen. unfold computeTrendMetrics.
  destruct s as [|[p0 v0] [|[p1 v1] rest]]; simpl in Hlen; try lia.
  reflexivity.
Qed.

(** With a non-zero first value the percent change is the finite quotient. *)
Lemma pct_change_finite {P : Type} (s : list (P * Q)) :
  (2 <= length s)%nat ->
  ~ hd 0 (map snd s) == 0 ->
  pctChange_of (computeTrendMetrics s)
  = Some (Finite ((last (map snd s) 0 - hd 0 (map snd s)) / hd 0 (map snd s) * 100)).
Proof.
  intros Hlen Hnz. rewrite (computeTrendMetrics_some s Hlen). simpl.
  unfold true_divide.
  destruct (Qeq_bool (hd 0 (map snd s)) 0) eqn:E; [|reflexivity].
  apply Qeq_bool_iff in E. contradiction.
Qed.

(** C1: on a series of two or more points whose first value is zero the
    script divides by that zero; it reports no fault, and the percent change
    it shows is an infinity with the sign of the last value, or NaN when the
    last value is zero too. *)
Theorem pct_change_zero_baseline {P : Type} (s : list (P * Q)) :
  (2 <= length s)%nat ->
  hd 0 (map snd s) == 0 ->
  pctChange_of (computeTrendMetrics s)
  = Some (match Qcompare (last (map snd s) 0) 0 with
          | Gt => PosInf
          | Lt => NegInf
          | Eq => NaN
          end).
Proof.
  intros Hlen Hz. rewrite (computeTrendMetrics_some s Hlen). simpl.
  unfold true_divide.
  destruct (Qeq_bool (hd 0 (map snd s)) 0) eqn:E.
  2:{ apply Qeq_bool_iff in Hz. congruence. }
  assert (Hc : Qcompare (last (map snd s) 0 - hd 0 (map snd s)) 0
               = Qcompare (last (map snd s) 0) 0).
  { apply Qcompare_comp; [|reflexivity]. rewrite Hz. ring. }
  rewrite Hc.
  destruct (Qcompare (last (map snd s) 0) 0); reflexivity.
Qed.

Lemma pct_change_zero_baseline_witness :
  (2 <= length [(2020%Z, 0); (2021%Z, 50)])%nat
  /\ hd 0 (map snd [(2020%Z, 0); (2021%Z, 50)]) == 0
  /\ pctChange_of (computeTrendMetrics [(2020%Z, 0); (2021%Z, 50)]) = Some PosInf.
Proof.
  split; [simpl; lia|]. split; [reflexivity|].
  apply (pct_change_zero_baseline [(2020%Z, 0); (2021%Z, 50)]).
  - simpl. lia.
  - reflexivity.
Defined.

(** C2 as stated fails: for a single point the script shows no "Latest
    Year" card either, since that card sits under the same length test. *)
Lemma single_point_latest_absent :
  latest_of (computeTrendMetrics [(2020%Z, 100)]) = None
  /\ ~ latest_of (computeTrendMetrics [(2020%Z, 100)]) = Some 100.
Proof. split; [reflexivity | discriminate]. Qed.

(** C2, amended: for a single-point series none of the metrics is
    computed: latest, delta, pctChange and the average are all absent. *)
Theorem single_point_no_metrics {P : Type} (p : P) (v : Q) :
  latest_of (computeTrendMetrics [(p, v)]) = None
  /\ delta_of (computeTrendMetrics [(p, v)]) = None
  /\ pctChange_of (computeTrendMetrics [(p, v)]) = None
  /\ average_of (computeTrendMetrics [(p, v)]) = None.
Proof. repeat split. Qed.

(** C3: on the series [(2020,100), (2021,150)] the metrics are
    latest = 150, delta = 150 - 100 = 50, pctChange = 50 / 100 * 100 = 50
    and average = (100 + 150) / 2 = 125. *)
Theorem trend_two_points :
  exists m,
    computeTrendMetrics [(2020%Z, 100); (2021%Z, 150)] = Some m
    /\ latest m == 150
    /\ sales_change m == 50
    /\ sales_change m == 150 - 100
    /\ (exists q, pct_change m = Finite q /\ q == 50 /\ q == sales_change m / 100 * 100)
    /\ average m == 125
    /\ average m == (100 + 150) / 2.
Proof.
  eexists. split; [reflexivity|]. simpl.
  repeat split; try reflexivity.
  eexists. repeat split; reflexivity.
Qed.

(** ** The two scenarios of the base table *)

(** Filtering to Country in {US}, then grouping by Year and summing Sales. *)
Example scenario_us_sales_by_year :
  groupby_sum [cYear] cSales
    (applyFilter base_table
       {| year_filter := [2020%Z; 2021%Z]; country_filter := ["US"];
          segment_filter := ["A"; "B"] |})
  = [([KInt 2020], 100); ([KInt 2021], 200)].
Proof. reflexivity. Qed.

(** Grouping the unfiltered table by Segment, summing Profit, sorted
    descending, top 1: the same row under every sort kind. *)
Example scenario_top_segment (K : SortKind) :
  sortAndLimit K profit_by_segment 1 = [([KStr "A"], 50)].
Proof.
  unfold sortAndLimit. rewrite sort_values_determined by reflexivity.
  reflexivity.
Qed.

(** ** The percent change on IEEE binary64 *)

(** The formula of the script on float64 scalars, evaluated by the kernel's
    binary64 arithmetic: the values agree with [true_divide] and [np_mul] on
    the series of the claims, with no rounding at these inputs. *)
Module Float64.
Import PrimFloat.
Local Open Scope float_scope.

Definition pct_change_f64 (first last : float) : float :=
  (last - first) / first * 100.

Example pct_change_f64_100_150 : pct_change_f64 100 150 = 50.
Proof. reflexivity. Qed.

Example pct_change_f64_0_50 : pct_change_f64 0 50 = infinity.
Proof. reflexivity. Qed.

Example pct_change_f64_0_minus50 : pct_change_f64 0 (-50) = neg_infinity.
Proof. reflexivity. Qed.

Example pct_change_f64_0_0 : is_nan (pct_change_f64 0 0) = true.
Proof. reflexivity. Qed.

Example mean_f64_100_150 : (100 + 150) / 2 = 125.
Proof. reflexivity. Qed.
End Float64.

(** * The page, row by row *)

(** ** Sidebar options and selections *)

Section SortedOptions.
Context {A : Type} (leb : A -> A -> bool).
Hypothesis leb_total : forall x y, leb x y = false -> leb y x = true.

Lemma insert_sorted_perm (x : A) (l : list A) :
  Permutation (insert_sorted leb x l) (x :: l).
Proof.
  induction l as [|y ys IH]; simpl; [reflexivity|].
  destruct (leb x y); [reflexivity|].
  rewrite IH. apply perm_swap.
Qed.

Lemma sorted_perm (l : list A) : Permutation (sorted leb l) l.
Proof.
  unfold sorted. induction l as [|x xs IH]; simpl; [reflexivity|].
  rewrite insert_sorted_perm, IH. reflexivity.
Qed.

Lemma insert_sorted_Sorted (x : A) (l : list A) :
  Sorted (fun a b => leb a b = true) l ->
  Sorted (fun a b => leb a b = true) (insert_sorted leb x l).
Proof.
  induction l as [|y ys IH]; simpl; intros HS.
  - repeat constructor.
  - destruct (leb x y) eqn:E.
    + constructor; [exact HS | constructor; exact E].
    + apply Sorted_inv in HS. destruct HS as [HS Hhd].
      constructor; [apply IH; exact HS|].
      destruct ys as [|z zs]; simpl.
      * constructor. apply leb_total. exact E.
      * apply HdRel_inv in Hhd.
        destruct (leb x z); constructor; [apply leb_total; exact E | exact Hhd].
Qed.

Lemma sorted_Sorted (l : list A) : Sorted (fun a b => leb a b = true) (sorted leb l).
Proof.
  unfold sorted. induction l as [|x xs IH]; simpl.
  - constructor.
  - apply insert_sorted_Sorted. exact IH.
Qed.

(** A sorted list without repetition is strictly increasing. *)
Lemma Sorted_NoDup_strict (l : list A) :
  Sorted (fun a b => leb a b = true) l -> NoDup l ->
  Sorted (fun a b => leb a b = true /\ a <> b) l.
Proof.
  induction 1 as [|a l HS IH Hhd]; intros HN; [constructor|].
  apply NoDup_cons_iff in HN. destruct HN as [Hnot HN].
  constructor; [apply IH; exact HN|].
  destruct Hhd as [|b l' Hab]; constructor.
  split; [exact Hab|]. intros ->. apply Hnot. left. reflexivity.
Qed.
End SortedOptions.

Lemma unique_NoDup {A : Type} (eqb : A -> A -> bool)
    (eqb_spec : forall x y, eqb x y = true <-> x = y) (l : list A) :
  NoDup (unique eqb l).
Proof.
  induction l as [|x xs IH]; simpl; constructor.
  - intros Hin. apply filter_In in Hin. destruct Hin as [_ Hne].
    assert (E : eqb x x = true) by (apply eqb_spec; reflexivity).
    rewrite E in Hne. discriminate.
  - apply NoDup_filter. exact IH.
Qed.

Lemma Zleb_total (x y : Z) : Z.leb x y = false -> Z.leb y x = true.
Proof. rewrite Z.leb_gt, Z.leb_le. lia. Qed.

Lemma String_leb_total (x y : string) : String.leb x y = false -> String.leb y x = true.
Proof.
  unfold String.leb. rewrite (String.compare_antisym x y).
  destruct (String.compare y x); simpl; congruence.
Qed.

(** What one options list of the sidebar is, for a column read by [cell]. *)
Definition options_of {A : Type} (leb eqb : A -> A -> bool) (col : list (option A)) : list A :=
  sorted leb (unique eqb (dropna col)).

(** Strictly increasing: in order, no value twice. *)
Definition strictly_ascending {A : Type} (leb : A -> A -> bool) (l : list A) : Prop :=
  Sorted (fun a b => leb a b = true /\ a <> b) l.

Lemma options_of_spec {A : Type} (leb eqb : A -> A -> bool)
    (leb_total : forall x y, leb x y = false -> leb y x = true)
    (eqb_spec : forall x y, eqb x y = true <-> x = y) (col : list (option A)) :
  strictly_ascending leb (options_of leb eqb col)
  /\ forall v, In v (options_of leb eqb col) <-> In (Some v) col.
Proof.
  unfold options_of, strictly_ascending. split.
  - apply Sorted_NoDup_strict.
    + apply sorted_Sorted. exact leb_total.
    + eapply Permutation_NoDup; [symmetry; apply sorted_perm|].
      apply unique_NoDup. exact eqb_spec.
  - intros v. rewrite In_sorted, (In_unique eqb eqb_spec), In_dropna. tauto.
Qed.

(** X1: The three option lists of the sidebar are strictly increasing and hold
    exactly the values present in their column. *)
Theorem sidebar_options_spec (df : Table) :
  (strictly_ascending Z.leb (year_options df)
   /\ forall y, In y (year_options df) <-> In (Some y) (map Year df))
  /\ (strictly_ascending String.leb (country_options df)
      /\ forall c, In c (country_options df) <-> In (Some c) (map Country df))
  /\ (strictly_ascending String.leb (segment_options df)
      /\ forall s, In s (segment_options df) <-> In (Some s) (map Segment df)).
Proof.
  split; [|split].
  - apply (options_of_spec Z.leb Z.eqb Zleb_total Z.eqb_eq).
  - apply (options_of_spec String.leb String.eqb String_leb_total String.eqb_eq).
  - apply (options_of_spec String.leb String.eqb String_leb_total String.eqb_eq).
Qed.

Lemma isin_true {A : Type} (eqb : A -> A -> bool)
    (eqb_spec : forall x y, eqb x y = true <-> x = y) (cell : option A) (values : list A) :
  isin eqb cell values = true <-> exists v, cell = Some v /\ In v values.
Proof.
  destruct cell as [x|]; simpl.
  - rewrite existsb_exists. split.
    + intros [v [Hv E]]. apply eqb_spec in E. subst v. eauto.
    + intros [v [E Hv]]. injection E as ->. exists v. split; [exact Hv|].
      apply eqb_spec. reflexivity.
  - split; [discriminate | intros [v [E _]]; discriminate].
Qed.

Lemma In_applyFilter (df : Table) (F : FilterSpec) (r : Row) :
  In r (applyFilter df F)
  <-> In r df
      /\ (exists y, Year r = Some y /\ In y (year_filter F))
      /\ (exists c, Country r = Some c /\ In c (country_filter F))
      /\ (exists s, Segment r = Some s /\ In s (segment_filter F)).
Proof.
  rewrite applyFilter_filter, filter_In. unfold row_passes.
  rewrite !andb_true_iff.
  rewrite (isin_true Z.eqb Z.eqb_eq), !(isin_true String.eqb String.eqb_eq).
  tauto.
Qed.

(** X2: A row is kept exactly when it is a row of the table and each of its
    Year, Country and Segment cells is present and among the values selected
    for it. *)
Theorem applyFilter_In (df : Table) (F : FilterSpec) (r : Row) :
  In r (applyFilter df F)
  <-> In r df
      /\ (exists y, Year r = Some y /\ In y (year_filter F))
      /\ (exists c, Country r = Some c /\ In c (country_filter F))
      /\ (exists s, Segment r = Some s /\ In s (segment_filter F)).
Proof. apply In_applyFilter. Qed.

Lemma filter_none {A : Type} (p : A -> bool) (l : list A) :
  (forall x, p x = false) -> List.filter p l = [].
Proof.
  intros H. induction l as [|x xs IH]; simpl; [reflexivity|].
  rewrite H. exact IH.
Qed.

(** X3: Unticking every value of one widget empties the filtered frame. *)
Theorem applyFilter_empty_widget (df : Table) (F : FilterSpec) :
  year_filter F = [] \/ country_filter F = [] \/ segment_filter F = [] ->
  applyFilter df F = [].
Proof.
  intros H. rewrite applyFilter_filter. apply filter_none. intros r.
  unfold row_passes.
  destruct H as [H|[H|H]]; rewrite H.
  - destruct (Year r); reflexivity.
  - destruct (Country r); simpl; rewrite ?andb_false_r; reflexivity.
  - destruct (Segment r); simpl; rewrite ?andb_false_r; reflexivity.
Qed.

Lemma applyFilter_empty_widget_witness :
  (year_filter {| year_filter := [2020%Z]; country_filter := [];
                 segment_filter := ["A"] |} = []
   \/ country_filter {| year_filter := [2020%Z]; country_filter := [];
                        segment_filter := ["A"] |} = []
   \/ segment_filter {| year_filter := [2020%Z]; country_filter := [];
                        segment_filter := ["A"] |} = [])
  /\ applyFilter base_table
       {| year_filter := [2020%Z]; country_filter := []; segment_filter := ["A"] |} = [].
Proof.
  split; [right; left; reflexivity|].
  apply (applyFilter_empty_widget base_table). right. left. reflexivity.
Defined.

Lemma filter_sublist_mono {A : Type} (p q : A -> bool) (l : list A) :
  (forall x, p x = true -> q x = true) ->
  sublist (List.filter p l) (List.filter q l).
Proof.
  intros H. induction l as [|x xs IH]; simpl; [constructor|].
  destruct (p x) eqn:Ep.
  - rewrite (H x Ep). constructor. exact IH.
  - destruct (q x); [constructor|]; exact IH.
Qed.

Lemma isin_incl {A : Type} (eqb : A -> A -> bool) (cell : option A) (v1 v2 : list A) :
  incl v1 v2 -> isin eqb cell v1 = true -> isin eqb cell v2 = true.
Proof.
  intros Hincl. destruct cell as [x|]; simpl; [|discriminate].
  rewrite !existsb_exists. intros [v [Hv E]]. exists v. split; [apply Hincl; exact Hv | exact E].
Qed.

(** X4: Narrowing the selections never brings in a row: the frame of the
    narrower selection is a subsequence of the frame of the wider one. *)
Theorem applyFilter_monotone (df : Table) (F1 F2 : FilterSpec) :
  incl (year_filter F1) (year_filter F2) ->
  incl (country_filter F1) (country_filter F2) ->
  incl (segment_filter F1) (segment_filter F2) ->
  sublist (applyFilter df F1) (applyFilter df F2).
Proof.
  intros Hy Hc Hs. rewrite !applyFilter_filter.
  apply filter_sublist_mono. intros r. unfold row_passes.
  rewrite !andb_true_iff. intros [[H1 H2] H3].
  repeat split; eapply isin_incl; eassumption.
Qed.

Lemma applyFilter_monotone_witness :
  incl [2020%Z] [2020%Z; 2021%Z] /\ incl ["US"] ["DE"; "US"] /\ incl ["A"] ["A"; "B"]
  /\ sublist
       (applyFilter base_table
          {| year_filter := [2020%Z]; country_filter := ["US"]; segment_filter := ["A"] |})
       (applyFilter base_table
          {| year_filter := [2020%Z; 2021%Z]; country_filter := ["DE"; "US"];
             segment_filter := ["A"; "B"] |}).
Proof.
  assert (Hy : incl [2020%Z] [2020%Z; 2021%Z]) by (intros x [<-|[]]; simpl; tauto).
  assert (Hc : incl ["US"] ["DE"; "US"]) by (intros x [<-|[]]; simpl; tauto).
  assert (Hs : incl ["A"] ["A"; "B"]) by (intros x [<-|[]]; simpl; tauto).
  repeat split; try assumption.
  exact (applyFilter_monotone base_table
           {| year_filter := [2020%Z]; country_filter := ["US"]; segment_filter := ["A"] |}
           {| year_filter := [2020%Z; 2021%Z]; country_filter := ["DE"; "US"];
              segment_filter := ["A"; "B"] |} Hy Hc Hs).
Defined.

(** ** Row 1: Sales Performance *)

Lemma rows_of_product_filter (filtered_df : Table) (p : string) :
  rows_of_product filtered_df p
  = List.filter (fun r => eq_cell String.eqb (Product r) p) filtered_df.
Proof.
  unfold rows_of_product. rewrite map_map. apply bool_index_map.
Qed.

Lemma In_rows_of_product (filtered_df : Table) (p : string) (r : Row) :
  In r (rows_of_product filtered_df p) <-> In r filtered_df /\ Product r = Some p.
Proof.
  rewrite rows_of_product_filter, filter_In.
  destruct (Product r) as [x|]; simpl.
  - rewrite String.eqb_eq. intuition congruence.
  - intuition discriminate.
Qed.

Lemma In_product_options (filtered_df : Table) (p : string) :
  In p (product_options filtered_df)
  <-> exists r, In r filtered_df /\ Product r = Some p.
Proof.
  unfold product_options.
  rewrite In_sorted, (In_unique String.eqb String.eqb_eq), In_dropna, in_map_iff.
  split; intros [r H]; exists r; tauto.
Qed.

(** Presence of a key in a grouped frame. *)
Lemma agg_get_In (k : list key) (s : Q) (res : AggregationResult) :
  agg_get k res = Some s -> In (k, s) res.
Proof.
  induction res as [|[k' s'] rest IH]; simpl; [discriminate|].
  destruct (keys_compare k k') eqn:E; auto.
  intros H. injection H as ->. apply keys_compare_eq in E. subst. left. reflexivity.
Qed.

Lemma In_agg_get (k : list key) (s : Q) (res : AggregationResult) :
  In (k, s) res -> agg_get k res <> None.
Proof.
  induction res as [|[k' s'] rest IH]; simpl; [contradiction|].
  intros [H|H].
  - injection H as -> ->. rewrite keys_compare_refl. discriminate.
  - destruct (keys_compare k k'); [discriminate | auto | auto].
Qed.

Lemma group_rows_nonempty (by_cols : list KeyCol) (k : list key) (df : Table) :
  group_rows by_cols k df <> [] <-> exists r, In r df /\ group_key by_cols r = Some k.
Proof.
  unfold group_rows. split.
  - intros H. destruct (List.filter (in_group by_cols k) df) as [|r rs] eqn:E;
      [contradiction|].
    assert (Hr : In r (List.filter (in_group by_cols k) df)) by (rewrite E; left; reflexivity).
    apply filter_In in Hr. destruct Hr as [Hr Hin]. exists r. split; [exact Hr|].
    unfold in_group in Hin. destruct (group_key by_cols r) as [k'|]; [|discriminate].
    destruct (keys_compare k' k) eqn:Ek; try discriminate.
    apply keys_compare_eq in Ek. congruence.
  - intros [r [Hr Hk]] E.
    assert (Hin : In r (List.filter (in_group by_cols k) df)).
    { apply filter_In. split; [exact Hr|]. unfold in_group.
      rewrite Hk, keys_compare_refl. reflexivity. }
    rewrite E in Hin. contradiction.
Qed.

(** A grouped frame has a row for a key exactly when a table row has it. *)
Lemma groupby_sum_has_key (by_cols : list KeyCol) (col : ValCol) (df : Table)
    (k : list key) :
  (exists s, In (k, s) (groupby_sum by_cols col df))
  <-> exists r, In r df /\ group_key by_cols r = Some k.
Proof.
  rewrite <- group_rows_nonempty.
  pose proof (groupby_sum_group by_cols col k df) as H.
  split.
  - intros [s Hs]. apply In_agg_get in Hs.
    destruct (agg_get k (groupby_sum by_cols col df)); [tauto | contradiction].
  - intros Hne.
    destruct (agg_get k (groupby_sum by_cols col df)) as [s|] eqn:E; [|contradiction].
    exists s. apply agg_get_In. exact E.
Qed.

Lemma groupby_sum_keys_sorted (by_cols : list KeyCol) (col : ValCol) (df : Table) :
  StronglySorted keys_lt (map fst (groupby_sum by_cols col df)).
Proof.
  apply Sorted_StronglySorted; [exact keys_lt_transitive|].
  unfold groupby_sum. apply fold_agg_sorted. constructor.
Qed.

Lemma StronglySorted_keys_NoDup (l : list (list key)) :
  StronglySorted keys_lt l -> NoDup l.
Proof.
  induction 1 as [|a l _ IH Hall]; constructor; [|exact IH].
  intros Hin. rewrite Forall_forall in Hall.
  exact (keys_lt_irrefl a (Hall a Hin)).
Qed.

Lemma groupby_sum_keys_NoDup (by_cols : list KeyCol) (col : ValCol) (df : Table) :
  NoDup (map fst (groupby_sum by_cols col df)).
Proof. apply StronglySorted_keys_NoDup, groupby_sum_keys_sorted. Qed.

(** The grouped frame is empty exactly when no row of the table has all its
    group-by cells. *)
Lemma groupby_sum_nil (by_cols : list KeyCol) (col : ValCol) (df : Table) :
  groupby_sum by_cols col df = [] <-> forall r, In r df -> group_key by_cols r = None.
Proof.
  split.
  - intros E r Hr. destruct (group_key by_cols r) as [k|] eqn:Hk; [|reflexivity].
    assert (H : exists s, In (k, s) (groupby_sum by_cols col df)).
    { apply groupby_sum_has_key. exists r. tauto. }
    rewrite E in H. destruct H as [s []].
  - intros H. destruct (groupby_sum by_cols col df) as [|[k s] rest] eqn:E; [reflexivity|].
    assert (Hk : exists s', In (k, s') (groupby_sum by_cols col df)).
    { exists s. rewrite E. left. reflexivity. }
    apply groupby_sum_has_key in Hk. destruct Hk as [r [Hr Hk]].
    rewrite (H r Hr) in Hk. discriminate.
Qed.

(** X7: The warning "No products available" is shown exactly when no row of the
    filtered frame has a Product. *)
Theorem no_products_iff (filtered_df : Table) (product_selected : string) :
  sales_performance filtered_df product_selected = NoProducts
  <-> forall r, In r filtered_df -> Product r = None.
Proof.
  unfold sales_performance. split.
  - intros H r Hr. destruct (Product r) as [p|] eqn:Hp; [|reflexivity].
    assert (Hin : In p (product_options filtered_df)).
    { apply In_product_options. exists r. tauto. }
    destruct (product_options filtered_df); [contradiction|].
    destruct (sales_trend_df filtered_df product_selected); discriminate.
  - intros H. destruct (product_options filtered_df) as [|p ps] eqn:E; [reflexivity|].
    assert (Hin : In p (product_options filtered_df)) by (rewrite E; left; reflexivity).
    apply In_product_options in Hin. destruct Hin as [r [Hr Hp]].
    rewrite (H r Hr) in Hp. discriminate.
Qed.

(** X8: For a product picked among the options of a filtered frame the trend
    frame is never empty: the warning "No sales data available" cannot be
    reached, and the chart is drawn. *)
Theorem no_sales_data_unreachable (df : Table) (F : FilterSpec) (product_selected : string) :
  In product_selected (product_options (applyFilter df F)) ->
  exists trend,
    trend <> []
    /\ sales_performance (applyFilter df F) product_selected
       = TrendChart (computeTrendMetrics trend) trend.
Proof.
  intros Hin. exists (sales_trend_df (applyFilter df F) product_selected).
  assert (Hne : sales_trend_df (applyFilter df F) product_selected <> []).
  { intros E. unfold sales_trend_df in E. rewrite groupby_sum_nil in E.
    apply In_product_options in Hin. destruct Hin as [r [Hr Hp]].
    assert (Hr' : In r (rows_of_product (applyFilter df F) product_selected)).
    { apply In_rows_of_product. tauto. }
    specialize (E r Hr'). apply In_applyFilter in Hr.
    destruct Hr as [_ [[y [Hy _]] _]]. simpl in E. rewrite Hy in E. discriminate. }
  split; [exact Hne|]. unfold sales_performance.
  destruct (product_options (applyFilter df F)); [contradiction|].
  destruct (sales_trend_df (applyFilter df F) product_selected); [contradiction|].
  reflexivity.
Qed.

Lemma no_sales_data_unreachable_witness :
  In "Paseo" (product_options (applyFilter base_table (default_filter base_table)))
  /\ exists trend,
       trend <> []
       /\ sales_performance (applyFilter base_table (default_filter base_table)) "Paseo"
          = TrendChart (computeTrendMetrics trend) trend.
Proof.
  assert (H : In "Paseo"
                (product_options (applyFilter base_table (default_filter base_table)))).
  { vm_compute. left. reflexivity. }
  split; [exact H|].
  exact (no_sales_data_unreachable base_table (default_filter base_table) "Paseo" H).
Defined.

Lemma computeTrendMetrics_shown {P : Type} (s : list (P * Q)) :
  (exists m, computeTrendMetrics s = Some m) <-> (2 <= length s)%nat.
Proof.
  split.
  - intros [m H]. unfold computeTrendMetrics in H.
    destruct s as [|[p0 v0] [|[p1 v1] rest]]; simpl in *; try discriminate. lia.
  - intros H. rewrite (computeTrendMetrics_some s H). eexists. reflexivity.
Qed.

Lemma two_distinct_members {A : Type} (l : list A) :
  NoDup l ->
  ((2 <= length l)%nat <-> exists a b, In a l /\ In b l /\ a <> b).
Proof.
  intros HN. split.
  - destruct l as [|a [|b rest]]; simpl; try lia. intros _.
    exists a, b. repeat split; [tauto | tauto |].
    intros ->. apply NoDup_cons_iff in HN. apply (proj1 HN). left. reflexivity.
  - intros [a [b [Ha [Hb Hab]]]].
    destruct l as [|x [|y rest]]; simpl in *; try lia; try tauto.
    destruct Ha as [<-|[]], Hb as [<-|[]]. congruence.
Qed.

Lemma group_key_year (r : Row) (k : list key) :
  group_key [cYear] r = Some k <-> exists y, Year r = Some y /\ k = [KInt y].
Proof.
  simpl. destruct (Year r) as [y|]; simpl.
  - split; [intros H; injection H as <-; eauto | intros [y' [E ->]]; congruence].
  - split; [discriminate | intros [y' [E _]]; discriminate].
Qed.

(** The year [y] has a point in the trend exactly when a row of the product
    has that year. *)
Lemma trend_has_year (filtered_df : Table) (p : string) (k : list key) :
  In k (map fst (sales_trend_df filtered_df p))
  <-> exists r y, In r filtered_df /\ Product r = Some p /\ Year r = Some y /\ k = [KInt y].
Proof.
  unfold sales_trend_df. rewrite in_map_iff. split.
  - intros [[k' s] [E Hin]]. simpl in E. subst k'.
    assert (H : exists s', In (k, s') (groupby_sum [cYear] cSales (rows_of_product filtered_df p)))
      by eauto.
    apply groupby_sum_has_key in H. destruct H as [r [Hr Hk]].
    apply In_rows_of_product in Hr. apply group_key_year in Hk.
    destruct Hk as [y [Hy Hk]]. exists r, y. tauto.
  - intros [r [y [Hr [Hp [Hy Hk]]]]].
    assert (H : exists s, In (k, s) (groupby_sum [cYear] cSales (rows_of_product filtered_df p))).
    { apply groupby_sum_has_key. exists r. split.
      - apply In_rows_of_product. tauto.
      - apply group_key_year. eauto. }
    destruct H as [s Hs]. exists (k, s). tauto.
Qed.

(** X9: The metric cards are shown exactly when the selected product has rows
    in two different years of the frame. *)
Theorem metrics_shown_iff (filtered_df : Table) (product_selected : string) :
  (exists m, computeTrendMetrics (sales_trend_df filtered_df product_selected) = Some m)
  <-> exists r1 r2 y1 y2,
        In r1 filtered_df /\ In r2 filtered_df
        /\ Product r1 = Some product_selected /\ Product r2 = Some product_selected
        /\ Year r1 = Some y1 /\ Year r2 = Some y2 /\ y1 <> y2.
Proof.
  rewrite computeTrendMetrics_shown.
  pose proof (two_distinct_members
                (map fst (sales_trend_df filtered_df product_selected))
                (groupby_sum_keys_NoDup _ _ _)) as Htwo.
  rewrite length_map in Htwo.
  etransitivity; [exact Htwo|]. clear Htwo. split.
  - intros [k1 [k2 [H1 [H2 Hne]]]].
    apply trend_has_year in H1, H2.
    destruct H1 as [r1 [y1 [? [? [? ?]]]]], H2 as [r2 [y2 [? [? [? ?]]]]].
    exists r1, r2, y1, y2. repeat split; try assumption. congruence.
  - intros [r1 [r2 [y1 [y2 [? [? [? [? [? [? Hne]]]]]]]]]].
    exists [KInt y1], [KInt y2]. repeat split.
    + apply trend_has_year. exists r1, y1. tauto.
    + apply trend_has_year. exists r2, y2. tauto.
    + congruence.
Qed.

(** X10: The trend of a filtered frame has at most one point per selected year;
    with fewer than two years selected no metric card is shown. *)
Theorem trend_points_bounded (df : Table) (F : FilterSpec) (product_selected : string) :
  (length (sales_trend_df (applyFilter df F) product_selected)
   <= length (year_filter F))%nat
  /\ ((length (year_filter F) <= 1)%nat ->
      computeTrendMetrics (sales_trend_df (applyFilter df F) product_selected) = None).
Proof.
  assert (Hlen : (length (sales_trend_df (applyFilter df F) product_selected)
                  <= length (year_filter F))%nat).
  { pose proof (NoDup_incl_length
                  (l := map fst (sales_trend_df (applyFilter df F) product_selected))
                  (l' := map (fun y => [KInt y]) (year_filter F))
                  (groupby_sum_keys_NoDup _ _ _)) as Hincl.
    rewrite !length_map in Hincl. apply Hincl.
    intros k Hk. apply trend_has_year in Hk.
    destruct Hk as [r [y [Hr [_ [Hy ->]]]]].
    apply In_applyFilter in Hr. destruct Hr as [_ [[y' [Hy' Hin]] _]].
    apply in_map_iff. exists y. split; [reflexivity | congruence]. }
  split; [exact Hlen|]. intros Hone.
  destruct (computeTrendMetrics (sales_trend_df (applyFilter df F) product_selected))
    as [m|] eqn:E; [|reflexivity].
  assert (H : (2 <= length (sales_trend_df (applyFilter df F) product_selected))%nat).
  { apply computeTrendMetrics_shown. eauto. }
  lia.
Qed.

Lemma trend_points_bounded_witness :
  (length (year_filter {| year_filter := [2020%Z]; country_filter := ["DE"; "US"];
                          segment_filter := ["A"; "B"] |}) <= 1)%nat
  /\ computeTrendMetrics
       (sales_trend_df
          (applyFilter base_table
             {| year_filter := [2020%Z]; country_filter := ["DE"; "US"];
                segment_filter := ["A"; "B"] |}) "Paseo") = None.
Proof.
  split; [simpl; lia|].
  apply (proj2 (trend_points_bounded base_table
                  {| year_filter := [2020%Z]; country_filter := ["DE"; "US"];
                     segment_filter := ["A"; "B"] |} "Paseo")).
  simpl. lia.
Defined.

(** ** Grouped frames, entry by entry *)

Lemma In_agg_get_value (k : list key) (s : Q) (res : AggregationResult) :
  NoDup (map fst res) -> In (k, s) res -> agg_get k res = Some s.
Proof.
  induction res as [|[k' s'] rest IH]; simpl; intros HN Hin; [contradiction|].
  apply NoDup_cons_iff in HN. destruct HN as [Hnot HN].
  destruct Hin as [H|H].
  - injection H as -> ->. rewrite keys_compare_refl. reflexivity.
  - destruct (keys_compare k k') eqn:E; try (apply IH; assumption).
    apply keys_compare_eq in E. subst k'. exfalso. apply Hnot.
    apply in_map_iff. exists (k, s). tauto.
Qed.

(** ** Rows 2 and 3: the rankings *)

Lemma StronglySorted_app_between {A : Type} (R : A -> A -> Prop) (l1 l2 : list A) :
  StronglySorted R (l1 ++ l2) -> forall x y, In x l1 -> In y l2 -> R x y.
Proof.
  induction l1 as [|a l1 IH]; simpl; intros HS x y Hx Hy; [contradiction|].
  apply StronglySorted_inv in HS. destruct HS as [HS Hall].
  destruct Hx as [<-|Hx].
  - rewrite Forall_forall in Hall. apply Hall. apply in_or_app. right. exact Hy.
  - exact (IH HS x y Hx Hy).
Qed.

Lemma descending_StronglySorted (l : AggregationResult) :
  descending l -> StronglySorted value_ge l.
Proof.
  intros H. apply Sorted_StronglySorted; [exact value_ge_transitive | exact H].
Qed.

Section Rankings.
Context (K : SortKind) (by_cols : list KeyCol) (col : ValCol).

(** X13: The row named under a ranking chart has the largest total of all
    groups of the frame, whatever the number of bars shown. *)
Theorem ranking_leader (df : Table) (n : nat) (bars : AggregationResult) (top_row : AggRow) :
  ranking (top_groups K by_cols col df n) = BarChart bars top_row ->
  bars = top_groups K by_cols col df n
  /\ In top_row (groupby_sum by_cols col df)
  /\ forall x, In x (groupby_sum by_cols col df) -> snd x <= snd top_row.
Proof.
  unfold ranking, top_groups, head. intros H.
  destruct (firstn n (sort_values (groupby_sum by_cols col df))) as [|t rest] eqn:E;
    [discriminate|].
  injection H as <- <-. split; [reflexivity|].
  pose proof (sort_values_perm (groupby_sum by_cols col df)) as HP.
  pose proof (descending_StronglySorted _ (sort_values_desc (groupby_sum by_cols col df)))
    as HS.
  destruct (sort_values (groupby_sum by_cols col df)) as [|t' sorted'] eqn:Es.
  { rewrite firstn_nil in E. discriminate. }
  destruct n as [|n]; simpl in E; [discriminate|]. injection E as -> _.
  split.
  - eapply Permutation_in; [exact HP | left; reflexivity].
  - intros x Hx. apply (Permutation_in _ (Permutation_sym HP)) in Hx.
    apply StronglySorted_inv in HS. destruct HS as [_ Hall].
    destruct Hx as [<-|Hx]; [apply Qle_refl|].
    rewrite Forall_forall in Hall. exact (Hall x Hx).
Qed.

(** X14: The bars shown are the largest groups: no group left out has a larger
    total than a group shown. *)
Theorem top_groups_largest (df : Table) (n : nat) (x y : AggRow) :
  In x (top_groups K by_cols col df n) ->
  In y (groupby_sum by_cols col df) ->
  ~ In y (top_groups K by_cols col df n) ->
  snd y <= snd x.
Proof.
  unfold top_groups, head. intros Hx Hy Hny.
  pose proof (sort_values_perm (groupby_sum by_cols col df)) as HP.
  pose proof (descending_StronglySorted _ (sort_values_desc (groupby_sum by_cols col df)))
    as HS.
  rewrite <- (firstn_skipn n (sort_values (groupby_sum by_cols col df))) in HS, HP.
  apply (Permutation_in _ (Permutation_sym HP)) in Hy.
  apply in_app_or in Hy. destruct Hy as [Hy|Hy]; [contradiction|].
  exact (StronglySorted_app_between value_ge _ _ HS x y Hx Hy).
Qed.

Lemma ranking_NoData (df : Table) (n : nat) :
  (0 < n)%nat ->
  (ranking (top_groups K by_cols col df n) = NoData
   <-> forall r, In r df -> group_key by_cols r = None).
Proof.
  intros Hn. rewrite <- (groupby_sum_nil by_cols col df).
  unfold ranking, top_groups, head.
  pose proof (sort_values_perm (groupby_sum by_cols col df)) as HP.
  split.
  - intros H.
    destruct (sort_values (groupby_sum by_cols col df)) as [|t rest] eqn:Es.
    + apply Permutation_nil. exact HP.
    + destruct n as [|n]; [lia|]. simpl in H. discriminate.
  - intros E. rewrite E in HP |- *. apply Permutation_sym, Permutation_nil in HP.
    rewrite HP, firstn_nil. reflexivity.
Qed.

(** X15: With at least one bar asked for, the warning replaces the chart exactly
    when no row of the frame has all its group-by cells. *)
Theorem ranking_no_data_iff (df : Table) (n : nat) :
  (0 < n)%nat ->
  (ranking (top_groups K by_cols col df n) = NoData
   <-> forall r, In r df -> group_key by_cols r = None).
Proof. apply ranking_NoData. Qed.
End Rankings.

Lemma ranking_leader_witness :
  ranking (top_groups stable_kind [cSegment] cProfit base_table 5)
  = BarChart [([KStr "A"], 50); ([KStr "B"], 5)] ([KStr "A"], 50)
  /\ [([KStr "A"], 50); ([KStr "B"], 5)]
     = top_groups stable_kind [cSegment] cProfit base_table 5
  /\ In ([KStr "A"], 50) (groupby_sum [cSegment] cProfit base_table)
  /\ forall x, In x (groupby_sum [cSegment] cProfit base_table) -> snd x <= 50.
Proof.
  split; [reflexivity|].
  exact (ranking_leader stable_kind [cSegment] cProfit base_table 5
           [([KStr "A"], 50); ([KStr "B"], 5)] ([KStr "A"], 50) eq_refl).
Defined.

Lemma top_groups_largest_witness :
  In ([KStr "A"], 50) (top_groups stable_kind [cSegment] cProfit base_table 1)
  /\ In ([KStr "B"], 5) (groupby_sum [cSegment] cProfit base_table)
  /\ ~ In ([KStr "B"], 5) (top_groups stable_kind [cSegment] cProfit base_table 1)
  /\ 5 <= 50.
Proof.
  assert (H1 : In ([KStr "A"], 50) (top_groups stable_kind [cSegment] cProfit base_table 1))
    by (vm_compute; left; reflexivity).
  assert (H2 : In ([KStr "B"], 5) (groupby_sum [cSegment] cProfit base_table))
    by (vm_compute; right; left; reflexivity).
  assert (H3 : ~ In ([KStr "B"], 5)
                 (top_groups stable_kind [cSegment] cProfit base_table 1)).
  { vm_compute. intros [H|[]]. discriminate. }
  repeat split; try assumption.
  exact (top_groups_largest stable_kind [cSegment] cProfit base_table 1
           ([KStr "A"], 50) ([KStr "B"], 5) H1 H2 H3).
Defined.

Lemma ranking_no_data_iff_witness :
  (0 < 5)%nat
  /\ (ranking (top_groups stable_kind [cProduct] cSales [no_product] 5) = NoData
      <-> forall r, In r [no_product] -> group_key [cProduct] r = None).
Proof.
  split; [lia|].
  apply (ranking_no_data_iff stable_kind [cProduct] cSales [no_product] 5). lia.
Defined.

(** X16: The Profit Optimization chart gives way to its warning exactly when the
    filtered frame is empty, for each choice of "Show top". *)
Theorem profit_warning_iff (K : SortKind) (df : Table) (F : FilterSpec) (top_n : nat) :
  In top_n top_n_options ->
  (ranking (top_profit_df K (applyFilter df F) top_n) = NoData
   <-> applyFilter df F = []).
Proof.
  intros Hn. unfold top_profit_df.
  assert (Hpos : (0 < top_n)%nat).
  { unfold top_n_options in Hn. simpl in Hn. lia. }
  rewrite (ranking_NoData K _ _ _ _ Hpos).
  pose proof (filtered_no_null_keys [cSegment; cCountry] df F) as Hk.
  unfold no_null_keys, has_key in Hk. rewrite forallb_forall in Hk.
  split.
  - intros H. destruct (applyFilter df F) as [|r rs] eqn:E; [reflexivity|].
    assert (Hr : In r (r :: rs)) by (left; reflexivity).
    specialize (Hk ltac:(simpl; intuition) r Hr).
    rewrite (H r Hr) in Hk. discriminate.
  - intros -> r [].
Qed.

Lemma profit_warning_iff_witness :
  In 5%nat top_n_options
  /\ (ranking (top_profit_df stable_kind (applyFilter base_table empty_selection) 5) = NoData
      <-> applyFilter base_table empty_selection = []).
Proof.
  assert (H : In 5%nat top_n_options) by (left; reflexivity).
  split; [exact H|].
  exact (profit_warning_iff stable_kind base_table empty_selection 5 H).
Defined.

(** ** Rows 2 and 5: one country's products *)

Lemma of_country_filter (frame : AggregationResult) (sel : option string) :
  of_country frame sel
  = List.filter
      (fun x => eq_selected (match fst x with KStr c :: _ => Some c | _ => None end) sel)
      frame.
Proof.
  unfold of_country, country_column. rewrite map_map. apply bool_index_map.
Qed.

Lemma In_of_country (frame : AggregationResult) (c : string) (x : AggRow) :
  In x (of_country frame (Some c)) <-> In x frame /\ exists rest, fst x = KStr c :: rest.
Proof.
  rewrite of_country_filter, filter_In.
  destruct (fst x) as [|[z|c'] rest]; simpl.
  - intuition; try discriminate. destruct H1 as [? ?]. discriminate.
  - intuition; try discriminate. destruct H1 as [? ?]. discriminate.
  - rewrite String.eqb_eq. split.
    + intros [H ->]. eauto.
    + intros [H [rest' E]]. injection E as -> _. tauto.
Qed.

Lemma of_country_None (frame : AggregationResult) : of_country frame None = [].
Proof.
  rewrite of_country_filter. apply filter_none. intros x.
  destruct (fst x) as [|[z|c] rest]; reflexivity.
Qed.

Lemma In_frame_countries (frame : AggregationResult) (c : string) :
  In c (frame_countries frame)
  <-> exists x rest, In x frame /\ fst x = KStr c :: rest.
Proof.
  unfold frame_countries, country_column.
  rewrite In_sorted, (In_unique String.eqb String.eqb_eq), In_dropna, in_map_iff.
  split.
  - intros [x [E Hx]]. destruct (fst x) as [|[z|c'] rest] eqn:Ek; try discriminate.
    injection E as ->. exists x, rest. tauto.
  - intros [x [rest [Hx Ek]]]. exists x. rewrite Ek. tauto.
Qed.

Lemma string_compare_eqb (a b : string) :
  match String.compare a b with Eq => true | _ => false end = String.eqb a b.
Proof.
  destruct (String.eqb_spec a b) as [->|Hne].
  - rewrite string_compare_refl. reflexivity.
  - destruct (String.compare a b) eqn:E; try reflexivity.
    apply String.compare_eq_iff in E. contradiction.
Qed.

Lemma group_key_country_product (r : Row) (k : list key) :
  group_key [cCountry; cProduct] r = Some k
  <-> exists c p, Country r = Some c /\ Product r = Some p /\ k = [KStr c; KStr p].
Proof.
  simpl. destruct (Country r) as [c|], (Product r) as [p|]; simpl; split;
    try discriminate;
    try (intros [c' [p' [E1 [E2 _]]]]; discriminate).
  - intros H. injection H as <-. eauto.
  - intros [c' [p' [E1 [E2 ->]]]]. congruence.
Qed.

(** The rows of the table with country [c] and product [p]. *)
Definition rows_of_country_product (df : Table) (c p : string) : Table :=
  List.filter
    (fun r => (eq_cell String.eqb (Country r) c && eq_cell String.eqb (Product r) p)%bool) df.

Lemma group_rows_country_product (df : Table) (c p : string) :
  group_rows [cCountry; cProduct] [KStr c; KStr p] df = rows_of_country_product df c p.
Proof.
  unfold group_rows, rows_of_country_product. apply filter_ext. intros r.
  unfold in_group. simpl.
  destruct (Country r) as [c'|], (Product r) as [p'|]; simpl; try reflexivity.
  - rewrite <- (string_compare_eqb c' c), <- (string_compare_eqb p' p).
    destruct (String.compare c' c); try reflexivity.
    destruct (String.compare p' p); reflexivity.
  - rewrite andb_false_r. reflexivity.
Qed.

(** A frame grouped by Country and Product lists a country as soon as it
    has a row. *)
Lemma frame_countries_nil (df : Table) :
  frame_countries (country_product_sales df) = [] <-> country_product_sales df = [].
Proof.
  split.
  - intros Eo. destruct (country_product_sales df) as [|[k s] rest] eqn:E; [reflexivity|].
    exfalso.
    assert (Hk : exists s', In (k, s') (groupby_sum [cCountry; cProduct] cSales df)).
    { exists s. fold (country_product_sales df). rewrite E. left. reflexivity. }
    apply groupby_sum_has_key in Hk. destruct Hk as [r [_ Hk]].
    apply group_key_country_product in Hk. destruct Hk as [c [p [_ [_ Hk]]]].
    enough (Hin : In c []) by contradiction.
    rewrite <- Eo. apply In_frame_countries.
    exists (k, s), [KStr p]. split; [left; reflexivity | exact Hk].
  - intros ->. reflexivity.
Qed.

Lemma country_product_sales_nil (df : Table) :
  country_product_sales df = []
  <-> forall r, In r df -> Country r = None \/ Product r = None.
Proof.
  unfold country_product_sales. rewrite groupby_sum_nil.
  split; intros H r Hr; specialize (H r Hr).
  - simpl in H. destruct (Country r), (Product r); simpl in H; try discriminate; tauto.
  - simpl. destruct H as [-> | ->]; [reflexivity|].
    destruct (option_map KStr (Country r)); reflexivity.
Qed.

(** The country picked in the selectbox has rows in the frame. *)
Lemma selected_country_rows (frame : AggregationResult) (index : nat) (c : string) :
  selectbox (frame_countries frame) index = Some c ->
  of_country frame (Some c) <> [].
Proof.
  intros Hsel E. unfold selectbox in Hsel.
  apply nth_error_In, In_frame_countries in Hsel.
  destruct Hsel as [x [rest [Hx Ek]]].
  assert (Hin : In x (of_country frame (Some c))) by (apply In_of_country; eauto).
  rewrite E in Hin. contradiction.
Qed.

Lemma sort_values_nil_iff (K : SortKind) (l : AggregationResult) :
  sort_values l = [] <-> l = [].
Proof.
  pose proof (sort_values_perm l) as HP. split; intros E.
  - rewrite E in HP. apply Permutation_nil in HP. exact HP.
  - subst l. apply Permutation_sym, Permutation_nil in HP. exact HP.
Qed.

Lemma NoDup_map_filter {A B : Type} (f : A -> B) (p : A -> bool) (l : list A) :
  NoDup (map f l) -> NoDup (map f (List.filter p l)).
Proof.
  induction l as [|a l IH]; simpl; intros HN; [constructor|].
  apply NoDup_cons_iff in HN. destruct HN as [Hnot HN].
  destruct (p a); simpl; [|auto].
  constructor; [|auto].
  intros Hin. apply Hnot. apply in_map_iff in Hin. destruct Hin as [x [E Hx]].
  apply filter_In in Hx. apply in_map_iff. exists x. tauto.
Qed.

(** The frame of one country has a bar for a product exactly when a row of
    the table has that country and that product. *)
Lemma of_country_has_product (df : Table) (c p : string) :
  (exists s, In ([KStr c; KStr p], s) (of_country (country_product_sales df) (Some c)))
  <-> exists r, In r df /\ Country r = Some c /\ Product r = Some p.
Proof.
  split.
  - intros [s Hs]. apply In_of_country in Hs. destruct Hs as [Hs _].
    assert (Hk : exists s', In ([KStr c; KStr p], s')
                              (groupby_sum [cCountry; cProduct] cSales df))
      by (exists s; exact Hs).
    apply groupby_sum_has_key in Hk. destruct Hk as [r [Hr Hk]].
    apply group_key_country_product in Hk.
    destruct Hk as [c' [p' [Ec [Ep E]]]]. injection E as <- <-.
    exists r. tauto.
  - intros [r [Hr [Ec Ep]]].
    assert (Hk : exists s, In ([KStr c; KStr p], s)
                             (groupby_sum [cCountry; cProduct] cSales df)).
    { apply groupby_sum_has_key. exists r. split; [exact Hr|].
      apply group_key_country_product. exists c, p. tauto. }
    destruct Hk as [s Hs]. exists s. apply In_of_country.
    split; [exact Hs|]. exists [KStr p]. reflexivity.
Qed.

(** Every key of the frame of one country is that country and a product. *)
Lemma of_country_keys (df : Table) (c : string) (x : AggRow) :
  In x (of_country (country_product_sales df) (Some c)) ->
  exists p, fst x = [KStr c; KStr p].
Proof.
  intros Hx. apply In_of_country in Hx. destruct Hx as [Hx [rest Ek]].
  destruct x as [k s]. simpl in Ek. subst k.
  assert (Hk : exists s', In (KStr c :: rest, s')
                            (groupby_sum [cCountry; cProduct] cSales df))
    by (exists s; exact Hx).
  apply groupby_sum_has_key in Hk. destruct Hk as [r [_ Hk]].
  apply group_key_country_product in Hk.
  destruct Hk as [c' [p [_ [_ E]]]]. injection E as <- ->.
  exists p. reflexivity.
Qed.

(** X17: For the country picked in the bar chart's selectbox the chart is never
    empty and its bars are ordered best seller first; every bar is a row of
    the grouped frame for that country and a product; there is exactly one
    bar per product of that country: a product has a bar exactly when a row
    of the filtered frame has that country and that product, and no two bars
    have the same key; and whenever the treemap's own selectbox of Row 5,
    at whatever position, is on the same country, the treemap shows the same
    rows. *)
Theorem market_bars (K : SortKind) (filtered_df : Table) (index index_dom : nat)
    (c : string) :
  selectbox (frame_countries (country_product_sales filtered_df)) index = Some c ->
  selectbox (frame_countries (groupby_sum [cCountry; cProduct] cSales filtered_df))
    index_dom = Some c ->
  country_sales_df K filtered_df index <> []
  /\ descending (country_sales_df K filtered_df index)
  /\ NoDup (map fst (country_sales_df K filtered_df index))
  /\ (forall x, In x (country_sales_df K filtered_df index)
                <-> In x (country_product_sales filtered_df)
                    /\ exists p, fst x = [KStr c; KStr p])
  /\ (forall p, (exists s, In ([KStr c; KStr p], s) (country_sales_df K filtered_df index))
                <-> exists r, In r filtered_df /\ Country r = Some c /\ Product r = Some p)
  /\ Permutation (country_sales_df K filtered_df index)
       (country_dom_df filtered_df index_dom).
Proof.
  intros Hsel Hdom. unfold country_sales_df, country_dom_df.
  rewrite Hdom. fold (country_product_sales filtered_df). rewrite Hsel.
  pose proof (sort_values_perm (of_country (country_product_sales filtered_df) (Some c)))
    as HP.
  split; [|split; [|split; [|split; [|split]]]].
  - rewrite sort_values_nil_iff. eapply selected_country_rows. exact Hsel.
  - apply sort_values_desc.
  - apply (Permutation_NoDup (Permutation_map fst (Permutation_sym HP))).
    rewrite of_country_filter. apply NoDup_map_filter.
    apply groupby_sum_keys_NoDup.
  - intros x. split.
    + intros Hx. apply (Permutation_in _ HP) in Hx.
      split; [apply In_of_country in Hx; tauto|].
      apply of_country_keys in Hx. exact Hx.
    + intros [Hx [p Ek]]. apply (Permutation_in _ (Permutation_sym HP)).
      apply In_of_country. split; [exact Hx|]. exists [KStr p]. exact Ek.
  - intros p. rewrite <- of_country_has_product. split.
    + intros [s Hs]. exists s. exact (Permutation_in _ HP Hs).
    + intros [s Hs]. exists s. exact (Permutation_in _ (Permutation_sym HP) Hs).
  - exact HP.
Qed.

Lemma market_bars_witness :
  selectbox (frame_countries (country_product_sales base_table)) 1 = Some "US"
  /\ selectbox (frame_countries (groupby_sum [cCountry; cProduct] cSales base_table)) 1
     = Some "US"
  /\ country_sales_df stable_kind base_table 1 <> []
  /\ descending (country_sales_df stable_kind base_table 1)
  /\ NoDup (map fst (country_sales_df stable_kind base_table 1))
  /\ (forall x, In x (country_sales_df stable_kind base_table 1)
                <-> In x (country_product_sales base_table)
                    /\ exists p, fst x = [KStr "US"; KStr p])
  /\ (forall p, (exists s, In ([KStr "US"; KStr p], s)
                             (country_sales_df stable_kind base_table 1))
                <-> exists r, In r base_table /\ Country r = Some "US"
                              /\ Product r = Some p)
  /\ Permutation (country_sales_df stable_kind base_table 1)
       (country_dom_df base_table 1).
Proof.
  split; [reflexivity|]. split; [reflexivity|].
  exact (market_bars stable_kind base_table 1 1 "US" eq_refl eq_refl).
Defined.

(** X18: With the selectbox at any of its positions, the Market Performance
    warning is shown exactly when no row of the frame has both a Country and
    a Product. *)
Theorem market_warning_iff (K : SortKind) (filtered_df : Table) (index : nat) :
  (frame_countries (country_product_sales filtered_df) <> [] ->
   (index < length (frame_countries (country_product_sales filtered_df)))%nat) ->
  (ranking (country_sales_df K filtered_df index) = NoData
   <-> forall r, In r filtered_df -> Country r = None \/ Product r = None).
Proof.
  intros Hidx. rewrite <- country_product_sales_nil, <- frame_countries_nil.
  assert (Hrank : ranking (country_sales_df K filtered_df index) = NoData
                  <-> country_sales_df K filtered_df index = []).
  { unfold ranking. destruct (country_sales_df K filtered_df index);
      split; try reflexivity; discriminate. }
  rewrite Hrank. unfold country_sales_df. rewrite sort_values_nil_iff.
  destruct (frame_countries (country_product_sales filtered_df)) as [|c0 cs] eqn:Eo.
  - unfold selectbox. destruct index; simpl; rewrite of_country_None; tauto.
  - assert (Hlt : (index < length (c0 :: cs))%nat) by (apply Hidx; discriminate).
    destruct (nth_error (c0 :: cs) index) as [c|] eqn:En.
    2:{ apply nth_error_None in En. lia. }
    unfold selectbox. rewrite En. split; [|discriminate].
    intros E. exfalso.
    apply (selected_country_rows (country_product_sales filtered_df) index c);
      [|exact E].
    rewrite Eo. exact En.
Qed.

Lemma market_warning_iff_witness :
  (frame_countries (country_product_sales base_table) <> [] ->
   (1 < length (frame_countries (country_product_sales base_table)))%nat)
  /\ (ranking (country_sales_df stable_kind base_table 1) = NoData
      <-> forall r, In r base_table -> Country r = None \/ Product r = None).
Proof.
  assert (H : frame_countries (country_product_sales base_table) <> [] ->
              (1 < length (frame_countries (country_product_sales base_table)))%nat).
  { intros _. apply Nat.ltb_lt. reflexivity. }
  split; [exact H|].
  exact (market_warning_iff stable_kind base_table 1 H).
Defined.

(** ** Rows 3 and 4: two columns aggregated at once *)

Section Upsert.
Context {V : Type}.

Lemma upsert_sorted (k : list key) (new : V) (upd : V -> V) (acc : list (list key * V)) :
  Sorted keys_lt (map fst acc) -> Sorted keys_lt (map fst (upsert k new upd acc)).
Proof.
  induction acc as [|[k' v] rest IH]; simpl; intros HS.
  - repeat constructor.
  - destruct (keys_compare k k') eqn:E; simpl.
    + exact HS.
    + constructor; [exact HS | constructor; exact E].
    + apply Sorted_inv in HS. destruct HS as [HS Hhd].
      constructor; [apply IH; exact HS|].
      apply keys_compare_gt_lt in E.
      destruct rest as [|[k2 v2] rest']; simpl in *.
      * constructor. exact E.
      * apply HdRel_inv in Hhd.
        destruct (keys_compare k k2); simpl; constructor; assumption.
Qed.

Lemma kv_get_below (k : list key) (acc : list (list key * V)) :
  Forall (fun x => keys_lt k (fst x)) acc -> kv_get k acc = None.
Proof.
  induction 1 as [|[k' v] rest Hlt _ IH]; simpl; [reflexivity|].
  unfold keys_lt in Hlt. simpl in Hlt. rewrite Hlt. exact IH.
Qed.

Lemma kv_get_upsert_same (k : list key) (new : V) (upd : V -> V)
    (acc : list (list key * V)) :
  Sorted keys_lt (map fst acc) ->
  kv_get k (upsert k new upd acc)
  = Some (match kv_get k acc with Some v => upd v | None => new end).
Proof.
  induction acc as [|[k' v] rest IH]; simpl; intros HS.
  - rewrite keys_compare_refl. reflexivity.
  - destruct (keys_compare k k') eqn:E; simpl.
    + rewrite E. reflexivity.
    + rewrite keys_compare_refl.
      apply Sorted_StronglySorted in HS; [|exact keys_lt_transitive].
      apply StronglySorted_inv in HS. destruct HS as [_ Hall].
      rewrite kv_get_below; [reflexivity|].
      rewrite Forall_forall in *. intros x Hx.
      apply (keys_lt_trans k k' (fst x) E).
      apply Hall. apply in_map. exact Hx.
    + rewrite E. apply IH. apply Sorted_inv in HS. tauto.
Qed.

Lemma kv_get_upsert_other (k0 k : list key) (new : V) (upd : V -> V)
    (acc : list (list key * V)) :
  keys_compare k0 k <> Eq -> kv_get k0 (upsert k new upd acc) = kv_get k0 acc.
Proof.
  intros Hne.
  induction acc as [|[k' v] rest IH]; simpl.
  - destruct (keys_compare k0 k); congruence.
  - destruct (keys_compare k k') eqn:E; simpl.
    + apply keys_compare_eq in E. subst k'.
      destruct (keys_compare k0 k); congruence.
    + destruct (keys_compare k0 k); congruence.
    + destruct (keys_compare k0 k'); [reflexivity | exact IH | exact IH].
Qed.

Lemma In_kv_get (k : list key) (v : V) (acc : list (list key * V)) :
  NoDup (map fst acc) -> In (k, v) acc -> kv_get k acc = Some v.
Proof.
  induction acc as [|[k' v'] rest IH]; simpl; intros HN Hin; [contradiction|].
  apply NoDup_cons_iff in HN. destruct HN as [Hnot HN].
  destruct Hin as [H|H].
  - injection H as -> ->. rewrite keys_compare_refl. reflexivity.
  - destruct (keys_compare k k') eqn:E; try (apply IH; assumption).
    apply keys_compare_eq in E. subst k'. exfalso. apply Hnot.
    apply in_map_iff. exists (k, v). tauto.
Qed.
End Upsert.

(** A projection of the values commutes with [upsert]. *)
Lemma map_upsert {V W : Type} (g : V -> W) (k : list key) (new : V) (upd : V -> V)
    (upd' : W -> W) (acc : list (list key * V)) :
  (forall v, g (upd v) = upd' (g v)) ->
  map (fun x => (fst x, g (snd x))) (upsert k new upd acc)
  = upsert k (g new) upd' (map (fun x => (fst x, g (snd x))) acc).
Proof.
  intros Hg. induction acc as [|[k' v] rest IH]; simpl; [reflexivity|].
  destruct (keys_compare k k'); simpl.
  - rewrite Hg. reflexivity.
  - reflexivity.
  - rewrite IH. reflexivity.
Qed.

Lemma agg_add_upsert (k : list key) (v : Q) (acc : AggregationResult) :
  agg_add k v acc = upsert k v (fun s => s + v) acc.
Proof.
  induction acc as [|[k' s] rest IH]; simpl; [reflexivity|].
  destruct (keys_compare k k'); [reflexivity | reflexivity | rewrite IH; reflexivity].
Qed.

Section TwoColumns.
Context (by_cols : list KeyCol).

Lemma fold_acc2_sales (df : Table) (acc : list (list key * (Acc * Acc))) :
  map (fun x => (fst x, acc_sum (fst (snd x)))) (fold_left (acc2_row by_cols) df acc)
  = fold_left (agg_row by_cols cSales) df
      (map (fun x => (fst x, acc_sum (fst (snd x)))) acc).
Proof.
  revert acc. induction df as [|r rs IH]; intros acc; [reflexivity|].
  cbn [fold_left]. rewrite IH. f_equal.
  unfold acc2_row, agg_row. destruct (group_key by_cols r) as [k|]; [|reflexivity].
  rewrite agg_add_upsert.
  apply (map_upsert (fun a : Acc * Acc => acc_sum (fst a))). reflexivity.
Qed.

Lemma fold_acc2_profit (df : Table) (acc : list (list key * (Acc * Acc))) :
  map (fun x => (fst x, acc_sum (snd (snd x)))) (fold_left (acc2_row by_cols) df acc)
  = fold_left (agg_row by_cols cProfit) df
      (map (fun x => (fst x, acc_sum (snd (snd x)))) acc).
Proof.
  revert acc. induction df as [|r rs IH]; intros acc; [reflexivity|].
  cbn [fold_left]. rewrite IH. f_equal.
  unfold acc2_row, agg_row. destruct (group_key by_cols r) as [k|]; [|reflexivity].
  rewrite agg_add_upsert.
  apply (map_upsert (fun a : Acc * Acc => acc_sum (snd a))). reflexivity.
Qed.

Lemma groupby_acc2_keys (df : Table) :
  map fst (groupby_acc2 by_cols df) = map fst (groupby_sum by_cols cSales df).
Proof.
  unfold groupby_acc2, groupby_sum.
  pose proof (fold_acc2_sales df []) as H. simpl in H.
  etransitivity; [|exact (f_equal (map fst) H)].
  rewrite map_map. reflexivity.
Qed.

(** X19: Each column of the two-column sum is the sum frame of that column
    alone: same groups, same order, same totals. *)
Theorem groupby_sum2_columns (df : Table) :
  sales_column (groupby_sum2 by_cols df) = groupby_sum by_cols cSales df
  /\ profit_column (groupby_sum2 by_cols df) = groupby_sum by_cols cProfit df.
Proof.
  unfold sales_column, profit_column, groupby_sum2, groupby_acc2, groupby_sum.
  rewrite !map_map. simpl. split.
  - apply (fold_acc2_sales df []).
  - apply (fold_acc2_profit df []).
Qed.
End TwoColumns.

Section UpsertFold.
Context {V : Type} (by_cols : list KeyCol) (new : Row -> V) (upd : Row -> V -> V).
Context (k : list key).

(** One row folded into a frame of accumulators. *)
Definition up_row (acc : list (list key * V)) (r : Row) : list (list key * V) :=
  match group_key by_cols r with
  | Some k' => upsert k' (new r) (upd r) acc
  | None => acc
  end.

(** The accumulator of one group, folded over the rows of the group. *)
Definition fold_group (rows : Table) (o : option V) : option V :=
  fold_left (fun o r => Some (match o with Some v => upd r v | None => new r end)) rows o.

Lemma up_row_sorted (acc : list (list key * V)) (r : Row) :
  Sorted keys_lt (map fst acc) -> Sorted keys_lt (map fst (up_row acc r)).
Proof.
  intros HS. unfold up_row.
  destruct (group_key by_cols r); [apply upsert_sorted|]; exact HS.
Qed.

Lemma kv_get_up_row_in (acc : list (list key * V)) (r : Row) :
  Sorted keys_lt (map fst acc) ->
  in_group by_cols k r = true ->
  kv_get k (up_row acc r)
  = Some (match kv_get k acc with Some v => upd r v | None => new r end).
Proof.
  intros HS Hin. unfold in_group in Hin. unfold up_row.
  destruct (group_key by_cols r) as [k'|]; [|discriminate].
  destruct (keys_compare k' k) eqn:E; try discriminate.
  apply keys_compare_eq in E. subst k'.
  apply kv_get_upsert_same. exact HS.
Qed.

Lemma kv_get_up_row_out (acc : list (list key * V)) (r : Row) :
  in_group by_cols k r = false -> kv_get k (up_row acc r) = kv_get k acc.
Proof.
  intros Hin. unfold in_group in Hin. unfold up_row.
  destruct (group_key by_cols r) as [k'|]; [|reflexivity].
  apply kv_get_upsert_other.
  rewrite keys_compare_antisym.
  destruct (keys_compare k' k); simpl; discriminate.
Qed.

(** The accumulator found for [k] after a pass over the table is the fold
    over the rows of [k], in table order. *)
Lemma fold_up_get (df : Table) (acc : list (list key * V)) :
  Sorted keys_lt (map fst acc) ->
  kv_get k (fold_left up_row df acc)
  = fold_group (group_rows by_cols k df) (kv_get k acc).
Proof.
  revert acc. induction df as [|r rs IH]; intros acc HS; [reflexivity|].
  cbn [fold_left]. rewrite group_rows_cons.
  rewrite (IH _ (up_row_sorted acc r HS)).
  destruct (in_group by_cols k r) eqn:Hin.
  - rewrite (kv_get_up_row_in acc r HS Hin). reflexivity.
  - rewrite (kv_get_up_row_out acc r Hin). reflexivity.
Qed.
End UpsertFold.

(** ** The total of one group of an int64 column *)

Lemma int64_val_range (col : ValCol) (r : Row) :
  wrap64 (int64_val col r) = int64_val col r.
Proof.
  unfold int64_val, int64_cell.
  destruct (val_cell col r) as [q|]; [|reflexivity].
  destruct ((Qden (Qred q) =? 1)%positive && (- 2 ^ 63 <=? Qnum (Qred q))%Z
            && (Qnum (Qred q) <? 2 ^ 63)%Z)%bool eqn:E; [|reflexivity].
  apply andb_true_iff in E. destruct E as [E Hhi].
  apply andb_true_iff in E. destruct E as [_ Hlo].
  apply Z.leb_le in Hlo. apply Z.ltb_lt in Hhi.
  unfold wrap64. rewrite Z.mod_small; lia.
Qed.

Lemma int64_groupby_sum_keys_NoDup (by_cols : list KeyCol) (col : ValCol) (df : Table) :
  NoDup (map fst (int64_groupby_sum by_cols col df)).
Proof.
  apply StronglySorted_keys_NoDup.
  apply Sorted_StronglySorted; [exact keys_lt_transitive|].
  unfold int64_groupby_sum.
  assert (H : forall acc : list (list key * Z),
             Sorted keys_lt (map fst acc) ->
             Sorted keys_lt (map fst (fold_left (int64_agg_row by_cols col) df acc))).
  { induction df as [|r rs IH]; intros acc HS; [exact HS|].
    cbn [fold_left]. apply IH. unfold int64_agg_row.
    destruct (group_key by_cols r); [apply upsert_sorted|]; exact HS. }
  apply H. constructor.
Qed.

Lemma fold_group_int64 (col : ValCol) (rows : Table) (a : Z) :
  fold_group (int64_val col) (fun r s => add_int64 s (int64_val col r)) rows (Some a)
  = Some (fold_left add_int64 (map (int64_val col) rows) a).
Proof.
  revert a. induction rows as [|r rs IH]; intros a; [reflexivity|].
  unfold fold_group in *. cbn [fold_left map]. apply IH.
Qed.

Lemma int64_groupby_sum_get (by_cols : list KeyCol) (col : ValCol) (df : Table)
    (k : list key) :
  kv_get k (int64_groupby_sum by_cols col df)
  = match group_rows by_cols k df with
    | [] => None
    | _ :: _ => Some (int64_sum (map (int64_val col) (group_rows by_cols k df)))
    end.
Proof.
  unfold int64_groupby_sum.
  change (int64_agg_row by_cols col)
    with (up_row by_cols (int64_val col) (fun r s => add_int64 s (int64_val col r))).
  rewrite (fold_up_get by_cols _ _ k df []); [|constructor].
  destruct (group_rows by_cols k df) as [|r rs]; [reflexivity|].
  unfold fold_group. cbn [fold_left kv_get].
  fold (fold_group (int64_val col) (fun r s => add_int64 s (int64_val col r)) rs
          (Some (int64_val col r))).
  rewrite fold_group_int64. unfold int64_sum. cbn [map fold_left].
  unfold add_int64 at 3. rewrite Z.add_0_l, int64_val_range. reflexivity.
Qed.

(** X6: Every row of a frame grouped on an int64 column carries the int64 sum
    of the value column over the table rows with its key, that is their
    exact sum wrapped around to 64 bits, and there is at least one such
    row. *)
Theorem groupby_sum_entry (by_cols : list KeyCol) (col : ValCol) (df : Table)
    (k : list key) (s : Z) :
  int64_column col df = true ->
  In (k, s) (int64_groupby_sum by_cols col df) ->
  s = int64_sum (map (int64_val col) (group_rows by_cols k df))
  /\ s = wrap64 (Zsum (map (int64_val col) (group_rows by_cols k df)))
  /\ exists r, In r df /\ group_key by_cols r = Some k.
Proof.
  intros _ Hin.
  apply (In_kv_get k s _ (int64_groupby_sum_keys_NoDup by_cols col df)) in Hin.
  rewrite int64_groupby_sum_get in Hin.
  destruct (group_rows by_cols k df) as [|r rs] eqn:E; [discriminate|].
  injection Hin as <-. split; [reflexivity|]. split; [apply int64_sum_wrap|].
  apply group_rows_nonempty. rewrite E. discriminate.
Qed.

Lemma groupby_sum_entry_witness :
  int64_column cSales huge = true
  /\ In ([KStr "Paseo"], (-446744073709551616)%Z) (int64_groupby_sum [cProduct] cSales huge)
  /\ (-446744073709551616)%Z
     = int64_sum (map (int64_val cSales) (group_rows [cProduct] [KStr "Paseo"] huge))
  /\ (-446744073709551616)%Z
     = wrap64 (Zsum (map (int64_val cSales) (group_rows [cProduct] [KStr "Paseo"] huge)))
  /\ exists r, In r huge /\ group_key [cProduct] r = Some [KStr "Paseo"].
Proof.
  assert (H : In ([KStr "Paseo"], (-446744073709551616)%Z)
                 (int64_groupby_sum [cProduct] cSales huge)).
  { vm_compute. left. reflexivity. }
  split; [reflexivity|]. split; [exact H|].
  exact (groupby_sum_entry [cProduct] cSales huge [KStr "Paseo"] _ eq_refl H).
Defined.


Definition new2 (r : Row) : Acc * Acc := (acc_init (Sales r), acc_init (Profit r)).
Definition upd2 (r : Row) (a : Acc * Acc) : Acc * Acc :=
  (acc_step (fst a) (Sales r), acc_step (snd a) (Profit r)).



Lemma dropna_cons {A : Type} (c : option A) (cs : list (option A)) :
  dropna (c :: cs) = match c with Some v => v :: dropna cs | None => dropna cs end.
Proof. destruct c; reflexivity. Qed.





Section Means.
Context (by_cols : list KeyCol).

Lemma acc2_row_up_row (acc : list (list key * (Acc * Acc))) (r : Row) :
  acc2_row by_cols acc r = up_row by_cols new2 upd2 acc r.
Proof. reflexivity. Qed.




(** X22: The mean frame and the sum frames list the same groups in the same
    order. *)
Theorem groupby_mean2_keys (df : Table) :
  map fst (groupby_mean2 by_cols df) = map fst (groupby_sum by_cols cSales df)
  /\ map fst (groupby_sum2 by_cols df) = map fst (groupby_sum by_cols cSales df).
Proof.
  unfold groupby_mean2, groupby_sum2. rewrite !map_map. simpl.
  split; apply groupby_acc2_keys.
Qed.
End Means.


(** ** Row 4, left: the product list built without dropna *)

Definition same_kind (a b : option string) : bool :=
  match a, b with
  | Some _, Some _ | None, None => true
  | _, _ => false
  end.

(** A list holding both a missing cell and a string. *)
Definition mixed (l : list (option string)) : Prop :=
  In None l /\ exists p, In (Some p) l.

Lemma py_lt_diff (a b : option string) : same_kind a b = false -> py_lt a b = None.
Proof. destruct a, b; simpl; congruence. Qed.

Lemma py_insert_same (x : option string) (s : list (option string)) :
  forallb (same_kind x) s = true -> exists s', py_insert x s = Some s'.
Proof.
  induction s as [|y ys IH]; simpl; intros H; [eauto|].
  apply andb_true_iff in H. destruct H as [Hy Hys].
  destruct (IH Hys) as [s' E]. rewrite E.
  destruct x, y; simpl in *; try discriminate.
  - destruct (String.ltb s s0); simpl; eauto.
  - eauto.
Qed.

Lemma py_insert_In (x : option string) (s s' : list (option string)) :
  py_insert x s = Some s' -> forall y, In y s' <-> y = x \/ In y s.
Proof.
  revert s'. induction s as [|z zs IH]; simpl; intros s' E y.
  - injection E as <-. simpl. intuition congruence.
  - destruct (py_lt x z) as [[|]|]; try discriminate.
    + injection E as <-. simpl. intuition congruence.
    + destruct (py_insert x zs) as [t|]; simpl in E; [|discriminate].
      injection E as <-. simpl. rewrite (IH t eq_refl). intuition congruence.
Qed.

Lemma py_sorted_In (l s : list (option string)) :
  py_sorted l = Some s -> forall y, In y s <-> In y l.
Proof.
  revert s. induction l as [|x xs IH]; simpl; intros s E y.
  - injection E as <-. tauto.
  - destruct (py_sorted xs) as [t|]; [|discriminate].
    rewrite (py_insert_In x t s E), (IH t eq_refl). intuition congruence.
Qed.

(** [sorted] raises exactly on a list that mixes a missing cell and strings. *)
Lemma py_sorted_None_iff (l : list (option string)) :
  py_sorted l = None <-> mixed l.
Proof.
  unfold mixed. induction l as [|x xs IH]; simpl.
  - split; [discriminate | intros [[] _]].
  - destruct (py_sorted xs) as [s|] eqn:E.
    + assert (Hnot : ~ (In None xs /\ exists p, In (Some p) xs)).
      { intros H. apply IH in H. discriminate. }
      pose proof (py_sorted_In xs s E) as Hin.
      destruct (forallb (same_kind x) s) eqn:F.
      * destruct (py_insert_same x s F) as [s' ->].
        split; [discriminate|]. intros [HN [p HP]]. exfalso.
        rewrite forallb_forall in F.
        destruct x as [x|].
        -- destruct HN as [HN|HN]; [discriminate|].
           apply Hin in HN. specialize (F None HN). discriminate.
        -- destruct HP as [HP|HP]; [discriminate|].
           apply Hin in HP. specialize (F (Some p) HP). discriminate.
      * assert (Hex : exists y, In y s /\ same_kind x y = false).
        { clear -F. induction s as [|z zs IHs]; simpl in F; [discriminate|].
          destruct (same_kind x z) eqn:Ez.
          - destruct (IHs F) as [y [Hy Hk]]. exists y. simpl. tauto.
          - exists z. simpl. tauto. }
        destruct Hex as [y [Hy Hk]].
        assert (Hhead : py_insert x s = None).
        { destruct s as [|h t]; [contradiction|]. simpl.
          rewrite py_lt_diff; [reflexivity|].
          assert (Hh : In h xs) by (apply Hin; left; reflexivity).
          apply Hin in Hy.
          destruct x as [x|], y as [y|], h as [h|]; simpl in *;
            try discriminate; try reflexivity; exfalso; apply Hnot; eauto. }
        rewrite Hhead. split; [intros _|reflexivity].
        apply Hin in Hy.
        destruct x as [x|], y as [y|]; simpl in Hk; try discriminate.
        -- split; [right; exact Hy | exists x; left; reflexivity].
        -- split; [left; reflexivity | exists y; right; exact Hy].
    + split; [intros _|reflexivity].
      destruct (proj1 IH eq_refl) as [HN [p HP]].
      split; [right; exact HN | exists p; right; exact HP].
Qed.

Lemma cell_eqb_eq (a b : option string) : cell_eqb a b = true <-> a = b.
Proof.
  destruct a as [x|], b as [y|]; simpl; try (split; congruence).
  rewrite String.eqb_eq. split; congruence.
Qed.

(** X23: The Seasonal Sales row fails with a TypeError exactly when the frame
    has a row without a Product and a row with one; the options of Row 1,
    built with dropna, are not affected. *)
Theorem seasonal_type_error_iff (filtered_df : Table) (index : nat) :
  seasonal_sales filtered_df index = TypeError
  <-> (exists r, In r filtered_df /\ Product r = None)
      /\ (exists r p, In r filtered_df /\ Product r = Some p).
Proof.
  assert (Herr : seasonal_sales filtered_df index = TypeError
                 <-> seasonal_options filtered_df = None).
  { unfold seasonal_sales. destruct (seasonal_options filtered_df) as [options|].
    - destruct (monthly_sales_df filtered_df (selectbox options index));
        split; discriminate.
    - tauto. }
  rewrite Herr. unfold seasonal_options. rewrite py_sorted_None_iff. unfold mixed.
  rewrite (In_unique cell_eqb cell_eqb_eq), in_map_iff.
  split.
  - intros [[r [E Hr]] [p Hp]].
    rewrite (In_unique cell_eqb cell_eqb_eq), in_map_iff in Hp.
    destruct Hp as [r' [E' Hr']]. split; [exists r | exists r', p]; tauto.
  - intros [[r [Hr E]] [r' [p [Hr' E']]]]. split; [exists r; tauto|].
    exists p. rewrite (In_unique cell_eqb cell_eqb_eq), in_map_iff. exists r'. tauto.
Qed.

Lemma filter_map_Some {A : Type} (f : option A -> bool) (l : list A) :
  List.filter f (map Some l) = map Some (List.filter (fun x => f (Some x)) l).
Proof.
  induction l as [|x xs IH]; simpl; [reflexivity|].
  destruct (f (Some x)); simpl; rewrite IH; reflexivity.
Qed.

Lemma unique_map_Some (l : list string) :
  unique cell_eqb (map Some l) = map Some (unique String.eqb l).
Proof.
  induction l as [|x xs IH]; simpl; [reflexivity|].
  rewrite IH, filter_map_Some. reflexivity.
Qed.

Lemma string_ltb_leb (x y : string) : x <> y -> String.ltb x y = String.leb x y.
Proof.
  intros Hne. unfold String.ltb, String.leb.
  destruct (String.compare x y) eqn:E; try reflexivity.
  apply String.compare_eq_iff in E. contradiction.
Qed.

Lemma py_insert_Some (x : string) (s : list string) :
  ~ In x s ->
  py_insert (Some x) (map Some s) = Some (map Some (insert_sorted String.leb x s)).
Proof.
  induction s as [|y ys IH]; simpl; intros Hnot; [reflexivity|].
  rewrite string_ltb_leb by (intros ->; apply Hnot; left; reflexivity).
  destruct (String.leb x y); [reflexivity|].
  rewrite IH by tauto. reflexivity.
Qed.

Lemma py_sorted_Some (l : list string) :
  NoDup l -> py_sorted (map Some l) = Some (map Some (sorted String.leb l)).
Proof.
  induction 1 as [|x xs Hnot HN IH]; simpl; [reflexivity|].
  rewrite IH. apply py_insert_Some. rewrite In_sorted. exact Hnot.
Qed.

Lemma map_Some_dropna {A : Type} (col : list (option A)) :
  (forall c, In c col -> c <> None) -> col = map Some (dropna col).
Proof.
  induction col as [|c cs IH]; intros H; [reflexivity|].
  rewrite dropna_cons. destruct c as [v|].
  - simpl. f_equal. apply IH. intros c Hc. apply H. right. exact Hc.
  - exfalso. apply (H None); [left|]; reflexivity.
Qed.

(** X24: When no row of the frame lacks a Product, the Seasonal Sales selectbox
    offers the same products, in the same order, as the one of Row 1. *)
Theorem seasonal_options_no_missing (filtered_df : Table) :
  (forall r, In r filtered_df -> Product r <> None) ->
  seasonal_options filtered_df = Some (map Some (product_options filtered_df)).
Proof.
  intros H. unfold seasonal_options, product_options.
  rewrite (map_Some_dropna (map Product filtered_df)) at 1.
  - rewrite unique_map_Some. apply py_sorted_Some.
    apply unique_NoDup. exact String.eqb_eq.
  - intros c Hc. apply in_map_iff in Hc. destruct Hc as [r [<- Hr]]. exact (H r Hr).
Qed.

Lemma seasonal_options_no_missing_witness :
  (forall r, In r base_table -> Product r <> None)
  /\ seasonal_options base_table = Some (map Some (product_options base_table)).
Proof.
  assert (H : forall r, In r base_table -> Product r <> None).
  { intros r [<-|[<-|[<-|[]]]]; discriminate. }
  split; [exact H|].
  exact (seasonal_options_no_missing base_table H).
Defined.

(** ** Row 1: what the metric cards show *)

Lemma StronglySorted_nth_error {A : Type} (R : A -> A -> Prop) (l : list A) (i j : nat)
    (a b : A) :
  StronglySorted R l -> (i < j)%nat ->
  nth_error l i = Some a -> nth_error l j = Some b -> R a b.
Proof.
  intros HS. revert i j. induction HS as [|x l HS IH Hall]; intros i j Hij Hi Hj.
  - destruct i; discriminate.
  - destruct j as [|j]; [lia|]. simpl in Hj.
    destruct i as [|i]; simpl in Hi.
    + injection Hi as <-. rewrite Forall_forall in Hall.
      apply Hall. eapply nth_error_In. exact Hj.
    + apply (IH i j); [lia | exact Hi | exact Hj].
Qed.

(** X11: The trend runs in time: a point further down the frame belongs to a
    later year, so [iloc[0]] is the earliest year of the product and
    [iloc[-1]] its latest. *)
Theorem trend_chronological (filtered_df : Table) (product_selected : string)
    (i j : nat) (y1 y2 : Z) (s1 s2 : Q) :
  (i < j)%nat ->
  nth_error (sales_trend_df filtered_df product_selected) i = Some ([KInt y1], s1) ->
  nth_error (sales_trend_df filtered_df product_selected) j = Some ([KInt y2], s2) ->
  (y1 < y2)%Z.
Proof.
  intros Hij Hi Hj.
  pose proof (groupby_sum_keys_sorted [cYear] cSales
                (rows_of_product filtered_df product_selected)) as HS.
  assert (H : keys_lt [KInt y1] [KInt y2]).
  { apply (StronglySorted_nth_error keys_lt _ i j _ _ HS Hij).
    - rewrite nth_error_map. exact (f_equal (option_map fst) Hi).
    - rewrite nth_error_map. exact (f_equal (option_map fst) Hj). }
  unfold keys_lt in H. simpl in H.
  destruct (Z.compare y1 y2) eqn:E; try discriminate.
  apply Z.compare_lt_iff. exact E.
Qed.

Lemma trend_chronological_witness :
  (0 < 1)%nat
  /\ nth_error (sales_trend_df base_table "Paseo") 0 = Some ([KInt 2020], 100)
  /\ nth_error (sales_trend_df base_table "Paseo") 1 = Some ([KInt 2021], 200)
  /\ (2020 < 2021)%Z.
Proof.
  split; [lia|]. split; [reflexivity|]. split; [reflexivity|].
  apply (trend_chronological base_table "Paseo" 0 1 2020 2021 100 200).
  - lia.
  - reflexivity.
  - reflexivity.
Defined.
